(** * QuEST_common.c: hardware-agnostic gate parameterisation, statistics and export

    A shallow embedding of [src/QuEST/QuEST_common.c].  The C type [REAL] and
    the operators and libm calls the file applies to it are an interface
    ([RealArith]); the file's functions are written once over that interface
    and then read at two instances: the exact real numbers, and IEEE 754
    binary64, the C [double] that [REAL] is at the precision setting 2.  The
    amplitude-update kernels are outside the file: a gate is the kernel call
    it makes.  [reportState] runs against a model of stdio. *)

From Stdlib Require Import ZArith String Ascii List Lia Lra.
From Stdlib Require Import QArith Qabs.
From Stdlib Require Import Floats.
From Stdlib Require Import Reals.
From stdpp Require Import base option list strings pretty gmap.

Close Scope Q_scope.
Set Default Proof Using "Type".

(** ** The arithmetic of [REAL] *)

(** [REAL] is a macro of [QuEST_precision.h]; the source applies to it the
    C operators [+ * /] and unary [-], the libm functions [sqrt], [cos] and
    [sin], and converts integer-valued literals ([0], [1], [-1], [2], [2.0])
    to it.  Each operation takes and returns a [REAL]: where [REAL] is
    [double] that is the C expression as it stands. *)
Class RealArith (REAL : Type) : Type := {
  radd  : REAL -> REAL -> REAL;
  rmul  : REAL -> REAL -> REAL;
  rdiv  : REAL -> REAL -> REAL;
  rneg  : REAL -> REAL;
  rsqrt : REAL -> REAL;
  rcos  : REAL -> REAL;
  rsin  : REAL -> REAL;
  rlit  : Z -> REAL
}.

Declare Scope REAL_scope.
Delimit Scope REAL_scope with REAL.
Notation "a + b" := (radd a b) : REAL_scope.
Notation "a * b" := (rmul a b) : REAL_scope.
Notation "a / b" := (rdiv a b) : REAL_scope.
Notation "- a" := (rneg a) : REAL_scope.

(** Exact real arithmetic. *)
#[export] Instance ExactReal : RealArith R := {|
  radd := Rplus;
  rmul := Rmult;
  rdiv := Rdiv;
  rneg := Ropp;
  rsqrt := R_sqrt.sqrt;
  rcos := Rtrigo_def.cos;
  rsin := Rtrigo_def.sin;
  rlit := IZR
|}.

(** ** Data model (QuEST.h) *)

Record Complex (REAL : Type) : Type := mkComplex { real : REAL; imag : REAL }.
Record Vector (REAL : Type) : Type := mkVector { x : REAL; y : REAL; z : REAL }.
Arguments mkComplex {REAL} _ _.
Arguments real {REAL} _.
Arguments imag {REAL} _.
Arguments mkVector {REAL} _ _ _.
Arguments x {REAL} _.
Arguments y {REAL} _.
Arguments z {REAL} _.

Record ComplexMatrix2 (REAL : Type) : Type := mkComplexMatrix2 {
  r0c0 : Complex REAL; r0c1 : Complex REAL;
  r1c0 : Complex REAL; r1c1 : Complex REAL
}.
Arguments mkComplexMatrix2 {REAL} _ _ _ _.
Arguments r0c0 {REAL} _.
Arguments r0c1 {REAL} _.
Arguments r1c0 {REAL} _.
Arguments r1c1 {REAL} _.

(** [ComplexArray]: the two parallel arrays [real] and [imag] of the C
    struct, named [reals] and [imags] here since [Complex] has the names. *)
Record ComplexArray (REAL : Type) : Type := mkComplexArray {
  reals : list REAL;
  imags : list REAL
}.
Arguments mkComplexArray {REAL} _ _.
Arguments reals {REAL} _.
Arguments imags {REAL} _.

Record QubitRegister (REAL : Type) : Type := mkQubitRegister {
  stateVec : ComplexArray REAL;
  numQubitsInStateVec : Z;
  numAmpsPerChunk : Z;
  chunkId : Z;
  numChunks : Z
}.
Arguments mkQubitRegister {REAL} _ _ _ _ _.
Arguments stateVec {REAL} _.
Arguments numQubitsInStateVec {REAL} _.
Arguments numAmpsPerChunk {REAL} _.
Arguments chunkId {REAL} _.
Arguments numChunks {REAL} _.

(** The register invariant of the data model: each array holds one entry
    per local amplitude. *)
Definition wf_register {REAL} (qureg : QubitRegister REAL) : Prop :=
  (0 <= numAmpsPerChunk qureg)%Z /\
  Z.of_nat (length (reals (stateVec qureg))) = numAmpsPerChunk qureg /\
  Z.of_nat (length (imags (stateVec qureg))) = numAmpsPerChunk qureg.

(** The calls into the amplitude-update kernels (QuEST_internal.h).  The
    kernels themselves are not part of this file: a call is recorded with
    the entry point and the arguments it receives. *)
Inductive KernelCall (REAL : Type) : Type :=
| statevec_compactUnitary
    (qureg : QubitRegister REAL) (targetQubit : Z) (alpha beta : Complex REAL)
| statevec_controlledCompactUnitary
    (qureg : QubitRegister REAL) (controlQubit targetQubit : Z)
    (alpha beta : Complex REAL)
| statevec_phaseShiftByTerm
    (qureg : QubitRegister REAL) (targetQubit : Z) (term : Complex REAL).
Arguments statevec_compactUnitary {REAL} _ _ _ _.
Arguments statevec_controlledCompactUnitary {REAL} _ _ _ _ _.
Arguments statevec_phaseShiftByTerm {REAL} _ _ _.

(** ** Vector and complex algebra, gate parameterisation, gate dispatch *)

Section Gates.
Context {REAL : Type} {arith : RealArith REAL}.
Local Open Scope REAL_scope.

Definition getVectorMagnitude (vec : Vector REAL) : REAL :=
  rsqrt (x vec * x vec + y vec * y vec + z vec * z vec).

Definition getUnitVector (vec : Vector REAL) : Vector REAL :=
  let mag := getVectorMagnitude vec in
  let unitVec := {| x := x vec / mag; y := y vec / mag; z := z vec / mag |} in
  unitVec.

Definition getConjugateScalar (scalar : Complex REAL) : Complex REAL :=
  {| real := real scalar; imag := - imag scalar |}.

Definition getConjugateMatrix (matrix : ComplexMatrix2 REAL) : ComplexMatrix2 REAL :=
  {| r0c0 := getConjugateScalar (r0c0 matrix);
     r0c1 := getConjugateScalar (r0c1 matrix);
     r1c0 := getConjugateScalar (r1c0 matrix);
     r1c1 := getConjugateScalar (r1c1 matrix) |}.

(** The two out-parameters [alpha] and [beta] are returned as a pair. *)
Definition getAlphaBetaFromRotation (angle : REAL) (axis : Vector REAL)
  : Complex REAL * Complex REAL :=
  let unitAxis := getUnitVector axis in
  let alpha := {| real := rcos (angle / rlit 2);
                  imag := - rsin (angle / rlit 2) * z unitAxis |} in
  let beta  := {| real := rsin (angle / rlit 2) * y unitAxis;
                  imag := - rsin (angle / rlit 2) * x unitAxis |} in
  (alpha, beta).

(** [c.imag *= -1] *)
Definition negate_imag (c : Complex REAL) : Complex REAL :=
  {| real := real c; imag := imag c * rlit (-1) |}.

Definition statevec_phaseShift (qureg : QubitRegister REAL) (targetQubit : Z)
    (angle : REAL) : KernelCall REAL :=
  let term := {| real := rcos angle; imag := rsin angle |} in
  statevec_phaseShiftByTerm qureg targetQubit term.

Definition statevec_sigmaZ (qureg : QubitRegister REAL) (targetQubit : Z)
  : KernelCall REAL :=
  let term := {| real := rlit (-1); imag := rlit 0 |} in
  statevec_phaseShiftByTerm qureg targetQubit term.

Definition statevec_sGate (qureg : QubitRegister REAL) (targetQubit : Z)
  : KernelCall REAL :=
  let term := {| real := rlit 0; imag := rlit 1 |} in
  statevec_phaseShiftByTerm qureg targetQubit term.

Definition statevec_tGate (qureg : QubitRegister REAL) (targetQubit : Z)
  : KernelCall REAL :=
  let term := {| real := rlit 1 / rsqrt (rlit 2);
                 imag := rlit 1 / rsqrt (rlit 2) |} in
  statevec_phaseShiftByTerm qureg targetQubit term.

Definition statevec_sGateConj (qureg : QubitRegister REAL) (targetQubit : Z)
  : KernelCall REAL :=
  let term := {| real := rlit 0; imag := rlit (-1) |} in
  statevec_phaseShiftByTerm qureg targetQubit term.

Definition statevec_tGateConj (qureg : QubitRegister REAL) (targetQubit : Z)
  : KernelCall REAL :=
  let term := {| real := rlit 1 / rsqrt (rlit 2);
                 imag := rlit (-1) / rsqrt (rlit 2) |} in
  statevec_phaseShiftByTerm qureg targetQubit term.

Definition statevec_rotateAroundAxis (qureg : QubitRegister REAL) (rotQubit : Z)
    (angle : REAL) (axis : Vector REAL) : KernelCall REAL :=
  let '(alpha, beta) := getAlphaBetaFromRotation angle axis in
  statevec_compactUnitary qureg rotQubit alpha beta.

Definition statevec_rotateX (qureg : QubitRegister REAL) (rotQubit : Z)
    (angle : REAL) : KernelCall REAL :=
  let unitAxis := {| x := rlit 1; y := rlit 0; z := rlit 0 |} in
  statevec_rotateAroundAxis qureg rotQubit angle unitAxis.

Definition statevec_rotateY (qureg : QubitRegister REAL) (rotQubit : Z)
    (angle : REAL) : KernelCall REAL :=
  let unitAxis := {| x := rlit 0; y := rlit 1; z := rlit 0 |} in
  statevec_rotateAroundAxis qureg rotQubit angle unitAxis.

Definition statevec_rotateZ (qureg : QubitRegister REAL) (rotQubit : Z)
    (angle : REAL) : KernelCall REAL :=
  let unitAxis := {| x := rlit 0; y := rlit 0; z := rlit 1 |} in
  statevec_rotateAroundAxis qureg rotQubit angle unitAxis.

Definition statevec_rotateAroundAxisConj (qureg : QubitRegister REAL)
    (rotQubit : Z) (angle : REAL) (axis : Vector REAL) : KernelCall REAL :=
  let '(alpha, beta) := getAlphaBetaFromRotation angle axis in
  let alpha := negate_imag alpha in
  let beta := negate_imag beta in
  statevec_compactUnitary qureg rotQubit alpha beta.

Definition statevec_controlledRotateAroundAxis (qureg : QubitRegister REAL)
    (controlQubit targetQubit : Z) (angle : REAL) (axis : Vector REAL)
  : KernelCall REAL :=
  let '(alpha, beta) := getAlphaBetaFromRotation angle axis in
  statevec_controlledCompactUnitary qureg controlQubit targetQubit alpha beta.

Definition statevec_controlledRotateAroundAxisConj (qureg : QubitRegister REAL)
    (controlQubit targetQubit : Z) (angle : REAL) (axis : Vector REAL)
  : KernelCall REAL :=
  let '(alpha, beta) := getAlphaBetaFromRotation angle axis in
  let alpha := negate_imag alpha in
  let beta := negate_imag beta in
  statevec_controlledCompactUnitary qureg controlQubit targetQubit alpha beta.

Definition statevec_controlledRotateX (qureg : QubitRegister REAL)
    (controlQubit targetQubit : Z) (angle : REAL) : KernelCall REAL :=
  let unitAxis := {| x := rlit 1; y := rlit 0; z := rlit 0 |} in
  statevec_controlledRotateAroundAxis qureg controlQubit targetQubit angle unitAxis.

Definition statevec_controlledRotateY (qureg : QubitRegister REAL)
    (controlQubit targetQubit : Z) (angle : REAL) : KernelCall REAL :=
  let unitAxis := {| x := rlit 0; y := rlit 1; z := rlit 0 |} in
  statevec_controlledRotateAroundAxis qureg controlQubit targetQubit angle unitAxis.

Definition statevec_controlledRotateZ (qureg : QubitRegister REAL)
    (controlQubit targetQubit : Z) (angle : REAL) : KernelCall REAL :=
  let unitAxis := {| x := rlit 0; y := rlit 0; z := rlit 1 |} in
  statevec_controlledRotateAroundAxis qureg controlQubit targetQubit angle unitAxis.

End Gates.

(** ** IEEE 754 binary64: the arithmetic of a C [double] *)

(** An integer-valued literal as a [double]. *)
Definition float_of_Z (n : Z) : float :=
  match n with
  | Z0 => PrimFloat.zero
  | Zpos _ => PrimFloat.of_uint63 (Uint63.of_Z n)
  | Zneg p => PrimFloat.opp (PrimFloat.of_uint63 (Uint63.of_Z (Zpos p)))
  end.

(** [cos] and [sin] are libm's: the instance takes them as given. *)
Definition Binary64 (libm_cos libm_sin : float -> float) : RealArith float := {|
  radd := PrimFloat.add;
  rmul := PrimFloat.mul;
  rdiv := PrimFloat.div;
  rneg := PrimFloat.opp;
  rsqrt := PrimFloat.sqrt;
  rcos := libm_cos;
  rsin := libm_sin;
  rlit := float_of_Z
|}.

(** ** printf conversions *)

(** [%d] *)
Definition fmt_d (n : Z) : string := pretty n.

(** The conversion of a [REAL] by [%.12f] (by [%.12Lf] where [REAL] is
    [long double]). *)
Class RealFormat (REAL : Type) : Type := fmt_12f : REAL -> string.

(** The character of the decimal digit [d]. *)
Definition digit_char (d : Z) : ascii := ascii_of_nat (48 + Z.to_nat d).

(** The [n] low decimal digits of [v], most significant first. *)
Fixpoint fixed_digits (n : nat) (v : Z) (acc : string) : string :=
  match n with
  | O => acc
  | S n' => fixed_digits n' (v / 10)%Z (String (digit_char (v mod 10)%Z) acc)
  end.

(** [m * 2^e * 10^12] rounded to the nearest integer, ties to even. *)
Definition round_scaled (m e : Z) : Z :=
  (if 0 <=? e then m * 2 ^ e * 10 ^ 12
   else
     let num := m * 10 ^ 12 in
     let den := 2 ^ (- e) in
     let q := num / den in
     let r := num mod den in
     if den <? 2 * r then q + 1
     else if (2 * r =? den) && Z.odd q then q + 1
     else q)%Z.

(** The sign printed before a value whose sign bit is [s]. *)
Definition fmt_sign (s : bool) : string := if s then "-" else "".

(** [%.12f] on a [double]: fixed notation, twelve digits after the point,
    the exact value rounded to nearest.  Rocq's floats have one NaN, so the
    sign glibc prints before [nan] is not modelled. *)
Definition fmt_12f_binary64 (f : float) : string :=
  match Prim2SF f with
  | S754_nan => "nan"
  | S754_infinity s => fmt_sign s +:+ "inf"
  | S754_zero s => fmt_sign s +:+ "0." +:+ fixed_digits 12 0%Z ""
  | S754_finite s m e =>
      let q := round_scaled (Zpos m) e in
      fmt_sign s +:+ pretty (q / 10 ^ 12)%Z +:+ "."
        +:+ fixed_digits 12 (q mod 10 ^ 12)%Z ""
  end.

#[export] Instance Binary64Format : RealFormat float := fmt_12f_binary64.

(** ** stdio *)

(** [FILE *]: the null pointer, or a stream. *)
Inductive FILEptr : Type := NULL | Stream (id : nat).

(** A call into stdio, with its arguments (and what [fopen] returned). *)
Inductive StdioCall : Type :=
| call_fopen (filename mode : string) (ret : FILEptr)
| call_fprintf (stream : FILEptr) (text : string)
| call_fclose (stream : FILEptr).

(** The part of the process state [reportState] acts on: the files, the
    open streams (each writing to a file), the names [fopen] cannot open
    for writing, and the stdio calls made so far. *)
Record World : Type := mkWorld {
  files : gmap string string;
  streams : gmap nat string;
  next_stream : nat;
  unwritable : gset string;
  calls : list StdioCall
}.

(** A run either returns, or reaches undefined behaviour (a null or
    closed stream handed to stdio, an array read out of bounds). *)
Inductive Outcome (A : Type) : Type :=
| Done (a : A) (w : World)
| Undefined (w : World).
Arguments Done {A} _ _.
Arguments Undefined {A} _.

Definition IO (A : Type) : Type := World -> Outcome A.

Definition io_ret {A} (a : A) : IO A := fun w => Done a w.

Definition io_bind {A B} (m : IO A) (k : A -> IO B) : IO B :=
  fun w => match m w with
           | Done a w' => k a w'
           | Undefined w' => Undefined w'
           end.

Definition io_undefined {A} : IO A := fun w => Undefined w.

Notation "x <-- m ;; k" := (io_bind m (fun x => k))
  (at level 100, m at next level, right associativity).
Notation "m ;;; k" := (io_bind m (fun _ => k))
  (at level 100, right associativity).

(** The world with one more call on record. *)
Definition log_call (c : StdioCall) (w : World) : World :=
  {| files := files w; streams := streams w; next_stream := next_stream w;
     unwritable := unwritable w; calls := calls w ++ [c] |}.

(** [fopen(filename, "w")]: a null pointer on failure; on success the file
    is created or truncated and a new stream writes to it. *)
Definition fopen_w (filename : string) : IO FILEptr := fun w =>
  if decide (filename ∈ unwritable w) then
    Done NULL (log_call (call_fopen filename "w" NULL) w)
  else
    let id := next_stream w in
    Done (Stream id)
      (log_call (call_fopen filename "w" (Stream id))
         {| files := <[filename := ""]> (files w);
            streams := <[id := filename]> (streams w);
            next_stream := S id;
            unwritable := unwritable w;
            calls := calls w |}).

(** [fprintf(stream, ...)] with the formatted [text]; the text is appended
    to the stream's file. *)
Definition fprintf (stream : FILEptr) (text : string) : IO unit := fun w =>
  let w := log_call (call_fprintf stream text) w in
  match stream with
  | NULL => Undefined w
  | Stream id =>
      match streams w !! id with
      | None => Undefined w
      | Some name =>
          Done tt
            {| files := <[name := default "" (files w !! name) +:+ text]> (files w);
               streams := streams w; next_stream := next_stream w;
               unwritable := unwritable w; calls := calls w |}
      end
  end.

(** [fclose(stream)]: the stream is no longer open. *)
Definition fclose (stream : FILEptr) : IO unit := fun w =>
  let w := log_call (call_fclose stream) w in
  match stream with
  | NULL => Undefined w
  | Stream id =>
      match streams w !! id with
      | None => Undefined w
      | Some _ =>
          Done tt
            {| files := files w; streams := delete id (streams w);
               next_stream := next_stream w;
               unwritable := unwritable w; calls := calls w |}
      end
  end.

(** ** Register statistics and export *)

Section Register.
Context {REAL : Type} {arith : RealArith REAL} {format : RealFormat REAL}.
(** The build-time precision setting of [QuEST_precision.h]. *)
Variable QuEST_PREC : Z.
Local Open Scope REAL_scope.

(** Modelled from the spec: [statevec_getRealAmpEl] is declared in
    QuEST_internal.h and defined outside this file; the spec gives it as a
    read-only accessor into the local amplitude partition.  The register is
    handed back beside the value read; an index outside the partition has
    no value. *)
Definition statevec_getRealAmpEl (qureg : QubitRegister REAL) (index : Z)
  : option (REAL * QubitRegister REAL) :=
  if (0 <=? index)%Z
  then el ← reals (stateVec qureg) !! Z.to_nat index; Some (el, qureg)
  else None.

(** Modelled from the spec: [statevec_getImagAmpEl], as
    [statevec_getRealAmpEl], on the imaginary parts. *)
Definition statevec_getImagAmpEl (qureg : QubitRegister REAL) (index : Z)
  : option (REAL * QubitRegister REAL) :=
  if (0 <=? index)%Z
  then el ← imags (stateVec qureg) !! Z.to_nat index; Some (el, qureg)
  else None.

Definition statevec_getProbEl (qureg : QubitRegister REAL) (index : Z)
  : option (REAL * QubitRegister REAL) :=
  '(real, qureg) ← statevec_getRealAmpEl qureg index;
  '(imag, qureg) ← statevec_getImagAmpEl qureg index;
  Some (real * real + imag * imag, qureg).

(** [qureg.stateVec.real[index]], [qureg.stateVec.imag[index]] *)
Definition read_amp (arr : list REAL) (index : Z) : IO REAL :=
  match (if (0 <=? index)%Z then arr !! Z.to_nat index else None) with
  | Some v => io_ret v
  | None => io_undefined
  end.

(** The body of the [for] loop, under the [# if] chain on [QuEST_PREC]. *)
Definition reportState_body (qureg : QubitRegister REAL) (state : FILEptr)
    (index : Z) : IO unit :=
  if ((QuEST_PREC =? 1) || (QuEST_PREC =? 2))%Z then
    re <-- read_amp (reals (stateVec qureg)) index ;;
    im <-- read_amp (imags (stateVec qureg)) index ;;
    fprintf state (fmt_12f re +:+ ", " +:+ fmt_12f im +:+ "
")
  else if (QuEST_PREC =? 4)%Z then
    re <-- read_amp (reals (stateVec qureg)) index ;;
    im <-- read_amp (imags (stateVec qureg)) index ;;
    fprintf state (fmt_12f re +:+ ", " +:+ fmt_12f im +:+ "
")
  else io_ret tt.

(** [for (; index < qureg.numAmpsPerChunk; index++)] from [index] on; [fuel]
    bounds the iterations, and [reportState] gives the loop as many as the
    test lets through. *)
Fixpoint reportState_loop (fuel : nat) (qureg : QubitRegister REAL)
    (state : FILEptr) (index : Z) : IO unit :=
  match fuel with
  | O => io_ret tt
  | S fuel' =>
      if (index <? numAmpsPerChunk qureg)%Z then
        reportState_body qureg state index ;;;
        reportState_loop fuel' qureg state (index + 1)%Z
      else io_ret tt
  end.

Definition reportState (qureg : QubitRegister REAL) : IO unit :=
  let filename := "state_rank_" +:+ fmt_d (chunkId qureg) +:+ ".csv" in
  state <-- fopen_w filename ;;
  (if (chunkId qureg =? 0)%Z then fprintf state "real, imag
" else io_ret tt) ;;;
  reportState_loop (Z.to_nat (numAmpsPerChunk qureg)) qureg state 0%Z ;;;
  fclose state.

End Register.

(** ** Index shifting, hashing, parameter report *)

(** [int] is 32 bits wide; an [int] sum outside its range has no value
    (signed overflow is undefined). *)
Definition INT_MIN : Z := (- 2 ^ 31)%Z.
Definition INT_MAX : Z := (2 ^ 31 - 1)%Z.

Definition in_int_range (n : Z) : bool := ((INT_MIN <=? n) && (n <=? INT_MAX))%Z.

Definition int_add (a b : Z) : option Z :=
  if in_int_range (a + b) then Some (a + b)%Z else None.

(** [for (int j=0; j < numIndices; j++) indices[j] += shift;] from [j] on.
    [indices] is the array the pointer leads to; an access past its end has
    no value.  [fuel] bounds the iterations, and [shiftIndices] gives the
    loop as many as the test lets through. *)
Fixpoint shiftIndices_loop (fuel : nat) (indices : list Z) (numIndices shift j : Z)
  : option (list Z) :=
  match fuel with
  | O => Some indices
  | S fuel' =>
      if (j <? numIndices)%Z then
        match indices !! Z.to_nat j with
        | None => None
        | Some v =>
            match int_add v shift with
            | None => None
            | Some v' =>
                shiftIndices_loop fuel' (<[Z.to_nat j := v']> indices)
                  numIndices shift (j + 1)%Z
            end
        end
      else Some indices
  end.

(** The array after the call. *)
Definition shiftIndices (indices : list Z) (numIndices shift : Z) : option (list Z) :=
  shiftIndices_loop (Z.to_nat numIndices) indices numIndices shift 0%Z.

Section LongWidth.
(** The width in bits of [long] and of [unsigned long]. *)
Variable LONG_BITS : Z.

(** A value as an [unsigned long]. *)
Definition to_ulong (n : Z) : Z := (n mod 2 ^ LONG_BITS)%Z.

(** [while ((c = *str++)) hash = ((hash << 5) + hash) + c;] on the chars
    from [str] on, each given as the [int] it promotes to; reading past
    the end of the buffer has no value. *)
Fixpoint hashString_loop (str : list Z) (hash : Z) : option Z :=
  match str with
  | [] => None
  | c :: str' =>
      if (c =? 0)%Z then Some hash
      else hashString_loop str'
             (to_ulong (to_ulong (to_ulong (Z.shiftl hash 5) + hash) + to_ulong c))
  end.

Definition hashString (str : list Z) : option Z := hashString_loop str 5381%Z.

(** [1L << n]: defined where [n] is not negative and the result fits a
    [long]. *)
Definition long_shl_1 (n : Z) : option Z :=
  if ((0 <=? n) && (n <? LONG_BITS - 1))%Z then Some (Z.shiftl 1 n) else None.

(** [a / b] on integers: truncated, undefined for a zero divisor. *)
Definition c_div (a b : Z) : option Z :=
  if (b =? 0)%Z then None else Some (Z.quot a b).

(** [%lld] *)
Definition fmt_lld (n : Z) : string := pretty n.

(** The texts of the [printf] calls of [reportQubitRegisterParams], in
    order; no value where the function is undefined. *)
Definition reportQubitRegisterParams {REAL} (qureg : QubitRegister REAL)
  : option (list string) :=
  numAmps ← long_shl_1 (numQubitsInStateVec qureg);
  numAmpsPerRank ← c_div numAmps (numChunks qureg);
  if (chunkId qureg =? 0)%Z then
    Some [ "QUBITS:
";
           "Number of qubits is " +:+ fmt_d (numQubitsInStateVec qureg) +:+ ".
";
           "Number of amps is " +:+ fmt_lld numAmps +:+ ".
";
           "Number of amps per rank is " +:+ fmt_lld numAmpsPerRank +:+ ".
" ]
  else Some [].

End LongWidth.

(** * Vocabulary of the statements *)

(** ** Axes and complex numbers *)

(** A non-zero axis: some component is not zero. *)
Definition nonzero_axis (v : Vector R) : Prop :=
  (x v <> 0 \/ y v <> 0 \/ z v <> 0)%R.

(** The caller's [c * v]. *)
Definition scale_axis {REAL} {arith : RealArith REAL} (c : REAL) (v : Vector REAL)
  : Vector REAL :=
  {| x := (c * x v)%REAL; y := (c * y v)%REAL; z := (c * z v)%REAL |}.

(** [|c|^2] of a complex number and the modulus [|c|], over the reals. *)
Definition norm_sq (c : Complex R) : R := (real c * real c + imag c * imag c)%R.

Definition modulus (c : Complex R) : R := R_sqrt.sqrt (norm_sq c).

(** The term a call hands to the phase-shift kernel. *)
Definition call_term {REAL} (call : KernelCall REAL) : option (Complex REAL) :=
  match call with
  | statevec_phaseShiftByTerm _ _ term => Some term
  | _ => None
  end.

(** ** Inputs in binary64 *)

(** The [double] nearest to pi, and its half. *)
Definition pi64 : float := 0x1.921fb54442d18p+1%float.

Definition half_pi64 : float := 0x1.921fb54442d18p+0%float.

(** The axis (1,1,1). *)
Definition axis_111 : Vector float :=
  {| x := 1%float; y := 1%float; z := 1%float |}.

(** Neither an infinity nor a NaN. *)
Definition is_finite (f : float) : bool :=
  match Prim2SF f with
  | S754_zero _ | S754_finite _ _ _ => true
  | _ => false
  end.

(** The rational a finite [double] stands for. *)
Definition binary64_value (f : float) : option Q :=
  match Prim2SF f with
  | S754_zero _ => Some (0 # 1)%Q
  | S754_finite s m e =>
      Some (Qmult (Qmake (if s then Zneg m else Zpos m) 1) (Qpower (2 # 1) e))
  | _ => None
  end.

(** [| |c|^2 - 1 | <= 1e-10], computed exactly; it bounds [| |c| - 1 |]. *)
Definition near_unit_modulus (c : Complex float) : bool :=
  match binary64_value (real c), binary64_value (imag c) with
  | Some a, Some b => Qle_bool (Qabs (a * a + b * b - 1)%Q) (1 # 10 ^ 10)%Q
  | _, _ => false
  end.

(** A NaN, or a value whose sign bit is clear. *)
Definition sf_not_negative (f : spec_float) : bool :=
  match f with
  | S754_nan => true
  | S754_zero s | S754_infinity s | S754_finite s _ _ => negb s
  end.

(** ** Registers and worlds of the examples *)

(** The register of the test: one amplitude, (0.6, 0.8). *)
Definition qureg_06_08 {REAL} (re im : REAL) : QubitRegister REAL :=
  {| stateVec := {| reals := [re]; imags := [im] |};
     numQubitsInStateVec := 0; numAmpsPerChunk := 1; chunkId := 0; numChunks := 1 |}.

(** The register of the export scenario: one chunk, the amplitudes (1,0)
    and (0,0). *)
Definition qureg_scenario : QubitRegister float :=
  {| stateVec := {| reals := [1%float; 0%float]; imags := [0%float; 0%float] |};
     numQubitsInStateVec := 1; numAmpsPerChunk := 2; chunkId := 0; numChunks := 1 |}.

(** No file, no open stream, every name writable. *)
Definition empty_world : World :=
  {| files := ∅; streams := ∅; next_stream := 0; unwritable := ∅; calls := [] |}.

(** A world in which the scenario's file cannot be opened. *)
Definition readonly_world : World :=
  {| files := ∅; streams := ∅; next_stream := 0;
     unwritable := {["state_rank_0.csv"]}; calls := [] |}.

(** ** The exported text *)

(** state_rank_<chunkId>.csv *)
Definition export_filename {REAL} (qureg : QubitRegister REAL) : string :=
  "state_rank_" +:+ pretty (chunkId qureg) +:+ ".csv".

(** The header and a data line, each with its newline. *)
Definition header_line : string := "real, imag
".

Definition data_line {REAL} {format : RealFormat REAL} (re im : REAL) : string :=
  fmt_12f re +:+ ", " +:+ fmt_12f im +:+ "
".

(** One line per local amplitude, in index order. *)
Definition data_lines {REAL} {format : RealFormat REAL} (qureg : QubitRegister REAL)
  : list string :=
  zip_with data_line (reals (stateVec qureg)) (imags (stateVec qureg)).

(** The lines one after the other. *)
Definition concat_lines (ls : list string) : string := foldr String.app "" ls.

(** The texts the run prints: the header on chunk 0, then the data lines
    where [QuEST_PREC] selects a branch of the [# if] chain. *)
Definition header_texts {REAL} (qureg : QubitRegister REAL) : list string :=
  if (chunkId qureg =? 0)%Z then [header_line] else [].

Definition data_texts {REAL} {format : RealFormat REAL} (QuEST_PREC : Z)
    (qureg : QubitRegister REAL) : list string :=
  if ((QuEST_PREC =? 1) || (QuEST_PREC =? 2) || (QuEST_PREC =? 4))%Z
  then data_lines qureg else [].

(** The characters 0 to 9; a string of them. *)
Definition is_digit (c : ascii) : bool :=
  (48 <=? nat_of_ascii c)%nat && (nat_of_ascii c <=? 57)%nat.

Fixpoint all_digits (s : string) : bool :=
  match s with
  | EmptyString => true
  | String c s' => is_digit c && all_digits s'
  end.

(** ** Runs *)

(** The world after a successful [fprintf] of [text] on the stream [id],
    open on the file [name]. *)
Definition write_world (id : nat) (name : string) (w : World) (text : string) : World :=
  {| files := <[name := default "" (files w !! name) +:+ text]> (files w);
     streams := streams w; next_stream := next_stream w;
     unwritable := unwritable w;
     calls := calls w ++ [call_fprintf (Stream id) text] |}.

(** The world a run ends in, returned or not. *)
Definition outcome_world {A} (o : Outcome A) : World :=
  match o with Done _ w => w | Undefined w => w end.

(** A call of [fopen]. *)
Definition is_fopen (c : StdioCall) : bool :=
  match c with call_fopen _ _ _ => true | _ => false end.

(** An action that makes stdio calls, none of them [fopen]. *)
Definition no_fopen {A} (m : IO A) : Prop :=
  forall w, exists l,
    calls (outcome_world (m w)) = calls w ++ l /\
    forallb (fun c => negb (is_fopen c)) l = true.

(** ** Shifted indices *)

(** The array with [shift] added to its first [n] entries. *)
Definition shifted (indices : list Z) (n : nat) (shift : Z) : list Z :=
  ((fun v => v + shift)%Z <$> take n indices) ++ drop n indices.

(** The array has [n] entries and each of the first [n], shifted, is an
    [int]. *)
Definition shift_defined (indices : list Z) (n : nat) (shift : Z) : bool :=
  (n <=? length indices)%nat
  && forallb (fun v => in_int_range (v + shift)) (take n indices).

(** ** Hashing *)

(** Horner's value of the chars with multiplier 33 from 5381, as an
    unbounded integer: [5381 * 33^n + c1 * 33^(n-1) + ... + cn]. *)
Definition djb2 (chars : list Z) : Z :=
  fold_left (fun h c => 33 * h + c)%Z chars 5381%Z.

(** ** Kernel parameters *)

(** The pair (alpha, beta) a call hands to a compact-unitary kernel. *)
Definition call_pair {REAL} (call : KernelCall REAL)
  : option (Complex REAL * Complex REAL) :=
  match call with
  | statevec_compactUnitary _ _ alpha beta => Some (alpha, beta)
  | statevec_controlledCompactUnitary _ _ _ alpha beta => Some (alpha, beta)
  | statevec_phaseShiftByTerm _ _ _ => None
  end.

(** A pair of unit norm: [|alpha|^2 + |beta|^2 = 1]. *)
Definition unit_pair (p : Complex R * Complex R) : Prop :=
  (norm_sq (fst p) + norm_sq (snd p) = 1)%R.

(** The axis with every component negated, and its mirror image in y. *)
Definition negate_axis (v : Vector R) : Vector R :=
  {| x := (- x v)%R; y := (- y v)%R; z := (- z v)%R |}.

Definition mirror_y (v : Vector R) : Vector R :=
  {| x := x v; y := (- y v)%R; z := z v |}.

(** The complex number with both parts negated. *)
Definition negate_complex (c : Complex R) : Complex R :=
  {| real := (- real c)%R; imag := (- imag c)%R |}.

(** * Properties *)

(** ** Exact real arithmetic: normalisation *)

Ltac unfold_real :=
  cbn [radd rmul rdiv rneg rsqrt rcos rsin rlit ExactReal
       x y z real imag fst snd] in *.

Section ExactNormalisation.
Local Open Scope R_scope.

Lemma sum_squares_nonneg (a b c : R) : 0 <= a * a + b * b + c * c.
Proof. nra. Qed.

Lemma sum_squares_pos (v : Vector R) :
  nonzero_axis v -> 0 < x v * x v + y v * y v + z v * z v.
Proof.
  intros Hv. pose proof (sum_squares_nonneg (x v) (y v) (z v)) as Hge.
  destruct (Req_dec (x v * x v + y v * y v + z v * z v) 0) as [Hz | Hnz];
    [ exfalso | lra ].
  assert (x v = 0 /\ y v = 0 /\ z v = 0) as (Hx & Hy & Hz') by (repeat split; nra).
  destruct Hv as [Hv | [Hv | Hv]]; contradiction.
Qed.

Lemma getVectorMagnitude_sqr (v : Vector R) :
  getVectorMagnitude v * getVectorMagnitude v = x v * x v + y v * y v + z v * z v.
Proof. unfold getVectorMagnitude. unfold_real. apply sqrt_sqrt, sum_squares_nonneg. Qed.

Lemma getVectorMagnitude_pos (v : Vector R) :
  nonzero_axis v -> 0 < getVectorMagnitude v.
Proof.
  intros Hv. unfold getVectorMagnitude. unfold_real.
  apply sqrt_lt_R0, sum_squares_pos, Hv.
Qed.

(** The components of the normalised axis have squares summing to one. *)
Lemma getUnitVector_sum_squares (v : Vector R) :
  nonzero_axis v ->
  x (getUnitVector v) * x (getUnitVector v)
  + y (getUnitVector v) * y (getUnitVector v)
  + z (getUnitVector v) * z (getUnitVector v) = 1.
Proof.
  intros Hv. pose proof (getVectorMagnitude_pos v Hv) as Hpos.
  pose proof (getVectorMagnitude_sqr v) as Hsq.
  unfold getUnitVector. unfold_real.
  set (m := getVectorMagnitude v) in *.
  transitivity ((x v * x v + y v * y v + z v * z v) / (m * m)).
  - field. lra.
  - rewrite <- Hsq. field. lra.
Qed.

Lemma getUnitVector_magnitude (v : Vector R) :
  nonzero_axis v -> getVectorMagnitude (getUnitVector v) = 1.
Proof.
  intros Hv. unfold getVectorMagnitude at 1. unfold_real.
  rewrite (getUnitVector_sum_squares v Hv). apply sqrt_1.
Qed.

(** The axis is its magnitude times the normalised axis. *)
Lemma getUnitVector_direction (v : Vector R) :
  nonzero_axis v -> scale_axis (getVectorMagnitude v) (getUnitVector v) = v.
Proof.
  intros Hv. pose proof (getVectorMagnitude_pos v Hv) as Hpos.
  destruct v as [vx vy vz]. unfold scale_axis, getUnitVector. unfold_real.
  set (m := getVectorMagnitude _) in *.
  f_equal; field; lra.
Qed.

(** A unit axis is its own normalisation. *)
Lemma getUnitVector_of_unit (v : Vector R) :
  getVectorMagnitude v = 1 -> getUnitVector v = v.
Proof.
  intros Hm. destruct v as [vx vy vz]. unfold getUnitVector. rewrite Hm.
  unfold_real. f_equal; field.
Qed.

Lemma getVectorMagnitude_scale (c : R) (v : Vector R) :
  0 < c -> getVectorMagnitude (scale_axis c v) = c * getVectorMagnitude v.
Proof.
  intros Hc. unfold getVectorMagnitude, scale_axis. unfold_real.
  replace (c * x v * (c * x v) + c * y v * (c * y v) + c * z v * (c * z v))
    with (c * c * (x v * x v + y v * y v + z v * z v)) by ring.
  rewrite sqrt_mult by (try apply sum_squares_nonneg; nra).
  rewrite sqrt_square by lra. reflexivity.
Qed.

Lemma getUnitVector_scale (c : R) (v : Vector R) :
  nonzero_axis v -> 0 < c -> getUnitVector (scale_axis c v) = getUnitVector v.
Proof.
  intros Hv Hc. pose proof (getVectorMagnitude_pos v Hv) as Hpos.
  unfold getUnitVector. rewrite (getVectorMagnitude_scale c v Hc).
  unfold scale_axis. unfold_real.
  set (m := getVectorMagnitude v) in *.
  f_equal; field; lra.
Qed.

End ExactNormalisation.

(** ** Gate parameterisation *)

(** In any arithmetic, the pair is the rotation formula over the axis
    divided by its magnitude. *)
Lemma getAlphaBetaFromRotation_unfold {REAL} {arith : RealArith REAL}
    (angle : REAL) (axis : Vector REAL) :
  getAlphaBetaFromRotation angle axis =
    ({| real := rcos (angle / rlit 2);
        imag := - rsin (angle / rlit 2) * z (getUnitVector axis) |},
     {| real := rsin (angle / rlit 2) * y (getUnitVector axis);
        imag := - rsin (angle / rlit 2) * x (getUnitVector axis) |})%REAL.
Proof. reflexivity. Qed.

(** C1. For every angle and axis, in any arithmetic,
    [getAlphaBetaFromRotation] divides the axis by its magnitude
    [sqrt (x*x + y*y + z*z)], giving (nx, ny, nz), and returns
    alpha = (cos(angle/2), -sin(angle/2)*nz) and
    beta = (sin(angle/2)*ny, -sin(angle/2)*nx).  Over the exact reals, for
    every non-zero axis, (nx, ny, nz) has magnitude one and the axis is its
    own magnitude times (nx, ny, nz). *)
Theorem getAlphaBetaFromRotation_normalises_then_derives :
  (forall (REAL : Type) (arith : RealArith REAL) (angle : REAL) (axis : Vector REAL),
     let mag := rsqrt (x axis * x axis + y axis * y axis + z axis * z axis)%REAL in
     let nx := (x axis / mag)%REAL in
     let ny := (y axis / mag)%REAL in
     let nz := (z axis / mag)%REAL in
     getUnitVector axis = {| x := nx; y := ny; z := nz |} /\
     getAlphaBetaFromRotation angle axis =
       ({| real := rcos (angle / rlit 2); imag := - rsin (angle / rlit 2) * nz |},
        {| real := rsin (angle / rlit 2) * ny;
           imag := - rsin (angle / rlit 2) * nx |})%REAL)
  /\
  (forall axis : Vector R,
     nonzero_axis axis ->
     getVectorMagnitude (getUnitVector axis) = 1%R /\
     scale_axis (getVectorMagnitude axis) (getUnitVector axis) = axis).
Proof.
  split.
  - intros REAL arith angle axis. split; reflexivity.
  - intros axis Haxis. split.
    + apply getUnitVector_magnitude, Haxis.
    + apply getUnitVector_direction, Haxis.
Qed.

Lemma getAlphaBetaFromRotation_normalises_witness :
  getVectorMagnitude (getUnitVector {| x := 0%R; y := 3%R; z := 4%R |}) = 1%R /\
  scale_axis (getVectorMagnitude {| x := 0%R; y := 3%R; z := 4%R |})
             (getUnitVector {| x := 0%R; y := 3%R; z := 4%R |})
  = {| x := 0%R; y := 3%R; z := 4%R |}.
Proof.
  apply (proj2 getAlphaBetaFromRotation_normalises_then_derives).
  right; left. cbn. lra.
Defined.

(** Over the reals [c.imag *= -1] is the negation of the imaginary part. *)
Lemma negate_imag_conjugate (c : Complex R) : negate_imag c = getConjugateScalar c.
Proof. unfold negate_imag, getConjugateScalar. unfold_real. f_equal. ring. Qed.

(** Over the reals the Conj variants pass the complex conjugates. *)
Lemma rotateAroundAxisConj_conjugates (qureg : QubitRegister R)
    (rotQubit controlQubit targetQubit : Z) (angle : R) (axis : Vector R) :
  statevec_rotateAroundAxisConj qureg rotQubit angle axis
  = statevec_compactUnitary qureg rotQubit
      (getConjugateScalar (fst (getAlphaBetaFromRotation angle axis)))
      (getConjugateScalar (snd (getAlphaBetaFromRotation angle axis))) /\
  statevec_controlledRotateAroundAxisConj qureg controlQubit targetQubit angle axis
  = statevec_controlledCompactUnitary qureg controlQubit targetQubit
      (getConjugateScalar (fst (getAlphaBetaFromRotation angle axis)))
      (getConjugateScalar (snd (getAlphaBetaFromRotation angle axis))).
Proof.
  unfold statevec_rotateAroundAxisConj, statevec_controlledRotateAroundAxisConj.
  destruct (getAlphaBetaFromRotation angle axis) as [alpha beta].
  now rewrite !negate_imag_conjugate.
Qed.

(** C2. For every angle and axis, in any arithmetic, the Conj variants
    derive (alpha, beta) from the same angle and axis as their counterparts,
    multiply the imaginary part of alpha and of beta by -1, and hand the
    pair to the same kernel entry point: [statevec_compactUnitary] for
    [statevec_rotateAroundAxisConj], [statevec_controlledCompactUnitary]
    for [statevec_controlledRotateAroundAxisConj].  Over the exact reals the
    pair handed over is the pair of complex conjugates. *)
Theorem rotateAroundAxisConj_negates_after_deriving :
  (forall (REAL : Type) (arith : RealArith REAL) (qureg : QubitRegister REAL)
          (rotQubit controlQubit targetQubit : Z) (angle : REAL)
          (axis : Vector REAL),
     let alpha := fst (getAlphaBetaFromRotation angle axis) in
     let beta := snd (getAlphaBetaFromRotation angle axis) in
     let alphaConj :=
       {| real := real alpha; imag := (imag alpha * rlit (-1))%REAL |} in
     let betaConj :=
       {| real := real beta; imag := (imag beta * rlit (-1))%REAL |} in
     statevec_rotateAroundAxis qureg rotQubit angle axis
       = statevec_compactUnitary qureg rotQubit alpha beta /\
     statevec_rotateAroundAxisConj qureg rotQubit angle axis
       = statevec_compactUnitary qureg rotQubit alphaConj betaConj /\
     statevec_controlledRotateAroundAxis qureg controlQubit targetQubit angle axis
       = statevec_controlledCompactUnitary qureg controlQubit targetQubit
           alpha beta /\
     statevec_controlledRotateAroundAxisConj qureg controlQubit targetQubit
         angle axis
       = statevec_controlledCompactUnitary qureg controlQubit targetQubit
           alphaConj betaConj)
  /\
  (forall (qureg : QubitRegister R) (rotQubit controlQubit targetQubit : Z)
          (angle : R) (axis : Vector R),
     let alpha := fst (getAlphaBetaFromRotation angle axis) in
     let beta := snd (getAlphaBetaFromRotation angle axis) in
     statevec_rotateAroundAxisConj qureg rotQubit angle axis
       = statevec_compactUnitary qureg rotQubit
           {| real := real alpha; imag := (- imag alpha)%R |}
           {| real := real beta; imag := (- imag beta)%R |} /\
     statevec_controlledRotateAroundAxisConj qureg controlQubit targetQubit
         angle axis
       = statevec_controlledCompactUnitary qureg controlQubit targetQubit
           {| real := real alpha; imag := (- imag alpha)%R |}
           {| real := real beta; imag := (- imag beta)%R |}).
Proof.
  split.
  - intros REAL arith qureg rotQubit controlQubit targetQubit angle axis.
    cbv zeta. unfold statevec_rotateAroundAxis, statevec_rotateAroundAxisConj,
      statevec_controlledRotateAroundAxis, statevec_controlledRotateAroundAxisConj,
      negate_imag.
    destruct (getAlphaBetaFromRotation angle axis) as [alpha beta].
    repeat split.
  - intros qureg rotQubit controlQubit targetQubit angle axis.
    exact (rotateAroundAxisConj_conjugates qureg rotQubit controlQubit targetQubit
             angle axis).
Qed.

(** The pair of the Conj variant is not the pair of the negated angle:
    about the axis (0,1,0) the two differ in the real part of beta. *)
Lemma rotateAroundAxisConj_is_not_negated_angle (qureg : QubitRegister R)
    (rotQubit : Z) :
  statevec_rotateAroundAxisConj qureg rotQubit PI {| x := 0%R; y := 1%R; z := 0%R |}
  <> statevec_rotateAroundAxis qureg rotQubit (- PI)%R
       {| x := 0%R; y := 1%R; z := 0%R |}.
Proof.
  intros Heq.
  unfold statevec_rotateAroundAxisConj, statevec_rotateAroundAxis in Heq.
  rewrite !getAlphaBetaFromRotation_unfold in Heq.
  assert (Hu : getUnitVector {| x := 0%R; y := 1%R; z := 0%R |}
               = {| x := 0%R; y := 1%R; z := 0%R |}).
  { apply getUnitVector_of_unit. unfold getVectorMagnitude. unfold_real.
    replace (0 * 0 + 1 * 1 + 0 * 0)%R with 1%R by ring. apply sqrt_1. }
  rewrite Hu in Heq.
  apply (f_equal (fun call => match call with
                              | statevec_compactUnitary _ _ _ beta => real beta
                              | _ => 0%R
                              end)) in Heq.
  unfold negate_imag in Heq. unfold_real.
  replace (- PI / 2)%R with (- (PI / 2))%R in Heq by field.
  rewrite sin_neg, sin_PI2 in Heq. lra.
Qed.

Lemma norm_sq_rotation (angle : R) (axis : Vector R) :
  nonzero_axis axis ->
  (norm_sq (fst (getAlphaBetaFromRotation angle axis))
   + norm_sq (snd (getAlphaBetaFromRotation angle axis)) = 1)%R.
Proof.
  intros Haxis. pose proof (getUnitVector_sum_squares axis Haxis) as Hn.
  rewrite getAlphaBetaFromRotation_unfold. unfold norm_sq. unfold_real.
  set (n := getUnitVector axis) in *.
  pose proof (sin2_cos2 (angle / 2)) as Hsc. unfold Rsqr in Hsc.
  set (s := Rtrigo_def.sin (angle / 2)) in *.
  set (c := Rtrigo_def.cos (angle / 2)) in *.
  transitivity (c * c + s * s * (x n * x n + y n * y n + z n * z n))%R.
  - ring.
  - rewrite Hn. lra.
Qed.

Lemma unit_axis_nonzero (n : Vector R) : getVectorMagnitude n = 1%R -> nonzero_axis n.
Proof.
  intros Hm. pose proof (getVectorMagnitude_sqr n) as Hsq. rewrite Hm in Hsq.
  unfold nonzero_axis.
  destruct (Req_dec (x n) 0) as [Hx | Hx]; [ | now left ].
  destruct (Req_dec (y n) 0) as [Hy | Hy]; [ | now right; left ].
  destruct (Req_dec (z n) 0) as [Hz | Hz]; [ | now right; right ].
  rewrite Hx, Hy, Hz in Hsq. lra.
Qed.

(** C3. Over exact real arithmetic, for every angle and every unit axis n,
    the pair produced by [getAlphaBetaFromRotation] satisfies
    |alpha|^2 + |beta|^2 = 1. *)
Theorem getAlphaBetaFromRotation_unit_norm (angle : R) (n : Vector R) :
  getVectorMagnitude n = 1%R ->
  let '(alpha, beta) := getAlphaBetaFromRotation angle n in
  (norm_sq alpha + norm_sq beta = 1)%R.
Proof.
  intros Hn. pose proof (norm_sq_rotation angle n (unit_axis_nonzero n Hn)) as Hsum.
  destruct (getAlphaBetaFromRotation angle n) as [alpha beta]. exact Hsum.
Qed.

Lemma unit_z_magnitude :
  getVectorMagnitude {| x := 0%R; y := 0%R; z := 1%R |} = 1%R.
Proof.
  unfold getVectorMagnitude. unfold_real.
  replace (0 * 0 + 0 * 0 + 1 * 1)%R with 1%R by ring. apply sqrt_1.
Qed.

Lemma getAlphaBetaFromRotation_unit_norm_witness :
  let '(alpha, beta) :=
    getAlphaBetaFromRotation 2%R {| x := 0%R; y := 0%R; z := 1%R |} in
  (norm_sq alpha + norm_sq beta = 1)%R.
Proof.
  apply (getAlphaBetaFromRotation_unit_norm 2%R {| x := 0%R; y := 0%R; z := 1%R |}).
  exact unit_z_magnitude.
Defined.

(** ** Gate dispatch *)

(** C4. For every register, qubit and angle, in any arithmetic,
    [statevec_rotateX], [statevec_rotateY] and [statevec_rotateZ] make the
    kernel call of [statevec_rotateAroundAxis] at the axes (1,0,0), (0,1,0)
    and (0,0,1), with the same parameters; likewise the controlled
    rotations and [statevec_controlledRotateAroundAxis]. *)
Theorem rotateXYZ_are_rotateAroundAxis :
  forall (REAL : Type) (arith : RealArith REAL) (qureg : QubitRegister REAL)
         (rotQubit controlQubit targetQubit : Z) (angle : REAL),
    let unitX := {| x := rlit 1; y := rlit 0; z := rlit 0 |} in
    let unitY := {| x := rlit 0; y := rlit 1; z := rlit 0 |} in
    let unitZ := {| x := rlit 0; y := rlit 0; z := rlit 1 |} in
    statevec_rotateX qureg rotQubit angle
      = statevec_rotateAroundAxis qureg rotQubit angle unitX /\
    statevec_rotateY qureg rotQubit angle
      = statevec_rotateAroundAxis qureg rotQubit angle unitY /\
    statevec_rotateZ qureg rotQubit angle
      = statevec_rotateAroundAxis qureg rotQubit angle unitZ /\
    statevec_controlledRotateX qureg controlQubit targetQubit angle
      = statevec_controlledRotateAroundAxis qureg controlQubit targetQubit angle unitX /\
    statevec_controlledRotateY qureg controlQubit targetQubit angle
      = statevec_controlledRotateAroundAxis qureg controlQubit targetQubit angle unitY /\
    statevec_controlledRotateZ qureg controlQubit targetQubit angle
      = statevec_controlledRotateAroundAxis qureg controlQubit targetQubit angle unitZ.
Proof. intros. repeat split. Qed.

(** In binary64 the three unit axes are their own normalisation. *)
Lemma getUnitVector_unit_axes_binary64 (libm_cos libm_sin : float -> float) :
  Forall (fun axis => getUnitVector (arith := Binary64 libm_cos libm_sin) axis = axis)
    [ {| x := 1%float; y := 0%float; z := 0%float |};
      {| x := 0%float; y := 1%float; z := 0%float |};
      {| x := 0%float; y := 0%float; z := 1%float |} ].
Proof. repeat constructor. Qed.

(** ** Phase gates *)

(** C5. In any arithmetic, each phase gate calls the phase-shift kernel
    with the term of the table: phaseShift(angle) with
    (cos(angle), sin(angle)), Z with (-1, 0), S with (0, 1), T with
    (1/sqrt(2), 1/sqrt(2)), S-adjoint with (0, -1) and T-adjoint with
    (1/sqrt(2), -1/sqrt(2)). *)
Theorem phase_gates_pass_table_terms :
  forall (REAL : Type) (arith : RealArith REAL) (qureg : QubitRegister REAL)
         (targetQubit : Z) (angle : REAL),
    statevec_phaseShift qureg targetQubit angle
      = statevec_phaseShiftByTerm qureg targetQubit
          {| real := rcos angle; imag := rsin angle |} /\
    statevec_sigmaZ qureg targetQubit
      = statevec_phaseShiftByTerm qureg targetQubit
          {| real := rlit (-1); imag := rlit 0 |} /\
    statevec_sGate qureg targetQubit
      = statevec_phaseShiftByTerm qureg targetQubit
          {| real := rlit 0; imag := rlit 1 |} /\
    statevec_tGate qureg targetQubit
      = statevec_phaseShiftByTerm qureg targetQubit
          {| real := (rlit 1 / rsqrt (rlit 2))%REAL;
             imag := (rlit 1 / rsqrt (rlit 2))%REAL |} /\
    statevec_sGateConj qureg targetQubit
      = statevec_phaseShiftByTerm qureg targetQubit
          {| real := rlit 0; imag := rlit (-1) |} /\
    statevec_tGateConj qureg targetQubit
      = statevec_phaseShiftByTerm qureg targetQubit
          {| real := (rlit 1 / rsqrt (rlit 2))%REAL;
             imag := (rlit (-1) / rsqrt (rlit 2))%REAL |}.
Proof. intros. repeat split. Qed.

(** Over the reals the imaginary part of the T-adjoint term is the
    negation of the real part. *)
Lemma tGateConj_term_exact (qureg : QubitRegister R) (targetQubit : Z) :
  call_term (statevec_tGateConj qureg targetQubit)
  = Some {| real := (1 / R_sqrt.sqrt 2)%R; imag := (- (1 / R_sqrt.sqrt 2))%R |}.
Proof.
  cbn. do 2 f_equal. pose proof (sqrt_lt_R0 2 ltac:(lra)). field. lra.
Qed.

Lemma modulus_of_norm_sq_1 (c : Complex R) : norm_sq c = 1%R -> modulus c = 1%R.
Proof. intros Hc. unfold modulus. rewrite Hc. apply sqrt_1. Qed.

Lemma inv_sqrt2_sqr : (1 / R_sqrt.sqrt 2 * (1 / R_sqrt.sqrt 2) = 1 / 2)%R.
Proof.
  pose proof (sqrt_lt_R0 2 ltac:(lra)) as Hpos.
  pose proof (sqrt_sqrt 2 ltac:(lra)) as Hsq.
  transitivity (1 / (R_sqrt.sqrt 2 * R_sqrt.sqrt 2))%R.
  - field. lra.
  - now rewrite Hsq.
Qed.

(** C6. Over exact real arithmetic, every term handed to the phase-shift
    kernel has modulus 1: the terms of Z, S, T, S-adjoint and T-adjoint, and
    the term of phaseShift(angle) for every angle. *)
Theorem phase_terms_have_unit_modulus :
  forall (qureg : QubitRegister R) (targetQubit : Z) (angle : R),
    modulus <$> call_term (statevec_phaseShift qureg targetQubit angle) = Some 1%R /\
    modulus <$> call_term (statevec_sigmaZ qureg targetQubit) = Some 1%R /\
    modulus <$> call_term (statevec_sGate qureg targetQubit) = Some 1%R /\
    modulus <$> call_term (statevec_tGate qureg targetQubit) = Some 1%R /\
    modulus <$> call_term (statevec_sGateConj qureg targetQubit) = Some 1%R /\
    modulus <$> call_term (statevec_tGateConj qureg targetQubit) = Some 1%R.
Proof.
  intros qureg targetQubit angle.
  repeat split; cbn [call_term statevec_phaseShift statevec_sigmaZ statevec_sGate
                     statevec_tGate statevec_sGateConj statevec_tGateConj fmap
                     option_fmap option_map];
    f_equal; apply modulus_of_norm_sq_1; unfold norm_sq; unfold_real.
  - pose proof (sin2_cos2 angle) as Hsc. unfold Rsqr in Hsc. lra.
  - lra.
  - lra.
  - rewrite inv_sqrt2_sqr. lra.
  - lra.
  - replace (-1 / R_sqrt.sqrt 2)%R with (- (1 / R_sqrt.sqrt 2))%R
      by (pose proof (sqrt_lt_R0 2 ltac:(lra)); field; lra).
    pose proof inv_sqrt2_sqr as Hsq. nra.
Qed.

(** In binary64, with any libm, the terms of Z, S, T, S-adjoint and
    T-adjoint have modulus within 1e-10 of 1. *)
Lemma table_terms_near_unit_binary64 (libm_cos libm_sin : float -> float)
    (qureg : QubitRegister float) (targetQubit : Z) :
  Forall (fun call => near_unit_modulus <$> call_term call = Some true)
    [ statevec_sigmaZ (arith := Binary64 libm_cos libm_sin) qureg targetQubit;
      statevec_sGate (arith := Binary64 libm_cos libm_sin) qureg targetQubit;
      statevec_tGate (arith := Binary64 libm_cos libm_sin) qureg targetQubit;
      statevec_sGateConj (arith := Binary64 libm_cos libm_sin) qureg targetQubit;
      statevec_tGateConj (arith := Binary64 libm_cos libm_sin) qureg targetQubit ].
Proof. repeat constructor; vm_compute; reflexivity. Qed.

(** ** Scaling the axis *)

Lemma float_neq (a b : float) : PrimFloat.eqb a b = false -> PrimFloat.eqb b b = true -> a <> b.
Proof. intros Hab Hbb Heq. rewrite Heq in Hab. congruence. Qed.

(** In binary64 the axis (3,3,3) normalises to 0x1.279a74590331cp-1 in each
    component, the axis (1,1,1) to 0x1.279a74590331dp-1. *)
Lemma getUnitVector_333_vs_111 (libm_cos libm_sin : float -> float) :
  x (getUnitVector (arith := Binary64 libm_cos libm_sin)
       (scale_axis (arith := Binary64 libm_cos libm_sin) 3%float axis_111))
    = 0x1.279a74590331cp-1%float /\
  x (getUnitVector (arith := Binary64 libm_cos libm_sin) axis_111)
    = 0x1.279a74590331dp-1%float.
Proof. split; vm_compute; reflexivity. Qed.

(** In binary64 the squares of a large axis overflow and its normalisation
    is the zero vector. *)
Lemma getUnitVector_overflow_binary64 (libm_cos libm_sin : float -> float) :
  getUnitVector (arith := Binary64 libm_cos libm_sin)
    {| x := 0x1.4e718d7d7625ap+664%float; y := 0%float; z := 0%float |}
  = {| x := 0%float; y := 0%float; z := 0%float |}.
Proof. vm_compute. reflexivity. Qed.

(** C10, as stated, fails in binary64: with any libm whose [sin] returns 1
    at the [double] nearest to pi/2, the rotation by the [double] nearest to
    pi about 3*(1,1,1) and about (1,1,1) give different beta. *)
Lemma getAlphaBetaFromRotation_scaling_binary64 :
  ~ exists libm_cos libm_sin : float -> float,
      libm_sin half_pi64 = 1%float /\
      getAlphaBetaFromRotation (arith := Binary64 libm_cos libm_sin) pi64
        (scale_axis (arith := Binary64 libm_cos libm_sin) 3%float axis_111)
      = getAlphaBetaFromRotation (arith := Binary64 libm_cos libm_sin) pi64 axis_111.
Proof.
  intros (libm_cos & libm_sin & Hsin & Heq).
  apply (f_equal (fun p => imag (snd p))) in Heq.
  rewrite !getAlphaBetaFromRotation_unfold in Heq.
  cbn [snd imag] in Heq.
  destruct (getUnitVector_333_vs_111 libm_cos libm_sin) as [H3 H1].
  rewrite H3, H1 in Heq.
  change (@rdiv float (Binary64 libm_cos libm_sin) pi64 (rlit 2)) with half_pi64 in Heq.
  cbn [rsin rneg rmul Binary64] in Heq. rewrite Hsin in Heq.
  revert Heq. apply float_neq; vm_compute; reflexivity.
Qed.

(** C10, amended. Over exact real arithmetic, for every angle, every
    non-zero axis v and every scalar c > 0, [getAlphaBetaFromRotation] at
    c*v returns the pair it returns at v. *)
Theorem getAlphaBetaFromRotation_scale_invariant (angle : R) (v : Vector R) (c : R) :
  nonzero_axis v -> (0 < c)%R ->
  getAlphaBetaFromRotation angle (scale_axis c v) = getAlphaBetaFromRotation angle v.
Proof.
  intros Hv Hc. rewrite !getAlphaBetaFromRotation_unfold.
  now rewrite (getUnitVector_scale c v Hv Hc).
Qed.

Lemma getAlphaBetaFromRotation_scale_invariant_witness :
  getAlphaBetaFromRotation 1%R (scale_axis 3%R {| x := 1%R; y := 1%R; z := 1%R |})
  = getAlphaBetaFromRotation 1%R {| x := 1%R; y := 1%R; z := 1%R |}.
Proof.
  apply (getAlphaBetaFromRotation_scale_invariant 1%R
           {| x := 1%R; y := 1%R; z := 1%R |} 3%R).
  - left. cbn. lra.
  - lra.
Defined.

(** ** Register statistics *)

Lemma lookup_valid_index {A} (l : list A) (n index : Z) :
  Z.of_nat (length l) = n -> (0 <= index < n)%Z ->
  exists v, l !! Z.to_nat index = Some v.
Proof.
  intros Hlen Hidx. apply lookup_lt_is_Some_2. lia.
Qed.

Lemma statevec_getProbEl_valid {REAL} {arith : RealArith REAL}
    (qureg : QubitRegister REAL) (index : Z) (re im : REAL) :
  (0 <= index)%Z ->
  reals (stateVec qureg) !! Z.to_nat index = Some re ->
  imags (stateVec qureg) !! Z.to_nat index = Some im ->
  statevec_getProbEl qureg index = Some ((re * re + im * im)%REAL, qureg).
Proof.
  intros Hidx Hre Him.
  unfold statevec_getProbEl, statevec_getRealAmpEl, statevec_getImagAmpEl.
  apply Z.leb_le in Hidx. rewrite Hidx. cbn. rewrite Hre. cbn.
  rewrite Him. reflexivity.
Qed.

Lemma statevec_getProbEl_inv {REAL} {arith : RealArith REAL}
    (qureg qureg' : QubitRegister REAL) (index : Z) (p : REAL) :
  statevec_getProbEl qureg index = Some (p, qureg') ->
  exists re im,
    reals (stateVec qureg) !! Z.to_nat index = Some re /\
    imags (stateVec qureg) !! Z.to_nat index = Some im /\
    p = (re * re + im * im)%REAL /\ qureg' = qureg.
Proof.
  unfold statevec_getProbEl, statevec_getRealAmpEl, statevec_getImagAmpEl.
  destruct (0 <=? index)%Z; [ | discriminate ].
  destruct (reals (stateVec qureg) !! Z.to_nat index) as [re | ];
    cbn; [ | discriminate ].
  destruct (imags (stateVec qureg) !! Z.to_nat index) as [im | ];
    cbn; [ | discriminate ].
  intros [= <- <-]. now exists re, im.
Qed.

(** In binary64 a square, and a sum of squares, is a NaN or has a clear
    sign bit: it is never below zero. *)
Lemma binary_round_aux_not_negative (prec emax m e : Z) (l : location) :
  sf_not_negative (binary_round_aux prec emax false m e l) = true.
Proof.
  unfold binary_round_aux.
  destruct (shr_fexp prec emax m e l) as [mrs' e'].
  destruct (shr_fexp prec emax _ e' loc_Exact) as [mrs'' e''].
  destruct (shr_m mrs''); [ | destruct (Z.leb _ _) | ]; reflexivity.
Qed.

Lemma SFmul_square_not_negative (prec emax : Z) (f : spec_float) :
  sf_not_negative (SFmul prec emax f f) = true.
Proof.
  destruct f as [ s | s | | s m e ]; cbn [SFmul].
  - now destruct s.
  - now destruct s.
  - reflexivity.
  - replace (xorb s s) with false by (destruct s; reflexivity).
    apply binary_round_aux_not_negative.
Qed.

Lemma SFadd_not_negative (prec emax : Z) (f g : spec_float) :
  sf_not_negative f = true -> sf_not_negative g = true ->
  sf_not_negative (SFadd prec emax f g) = true.
Proof.
  destruct f as [ [ | ] | [ | ] | | [ | ] mf ef ]; try discriminate;
    destruct g as [ [ | ] | [ | ] | | [ | ] mg eg ]; try discriminate;
    intros _ _; try reflexivity.
  cbn [SFadd cond_Zopp].
  set (pf := fst (shl_align mf ef (Z.min ef eg))).
  set (pg := fst (shl_align mg eg (Z.min ef eg))).
  change (Z.pos pf + Z.pos pg)%Z with (Z.pos (pf + pg)).
  clearbody pf pg. cbn [binary_normalize]. unfold binary_round.
  destruct (shl_align _ _ _) as [mz ez]. apply binary_round_aux_not_negative.
Qed.

Lemma binary64_sum_of_squares_not_negative (a b : float) :
  PrimFloat.ltb (a * a + b * b)%float 0%float = false.
Proof.
  rewrite ltb_spec, add_spec, !mul_spec.
  pose proof (SFadd_not_negative prec emax _ _
                (SFmul_square_not_negative prec emax (Prim2SF a))
                (SFmul_square_not_negative prec emax (Prim2SF b))) as Hs.
  unfold SF64add, SF64mul.
  destruct (SFadd prec emax _ _) as [ [ | ] | [ | ] | | [ | ] m e ];
    try discriminate; reflexivity.
Qed.

(** C7. For every register and every valid local index, in any arithmetic,
    [statevec_getProbEl] returns real*real + imag*imag for the amplitude at
    that index and hands the register back unchanged; the value is
    non-negative over the reals and never below zero in binary64; the
    amplitude (0.6, 0.8) gives 1, over the reals and in binary64. *)
Theorem statevec_getProbEl_norm_sq_pure_read :
  (forall (REAL : Type) (arith : RealArith REAL) (qureg : QubitRegister REAL)
          (index : Z),
     wf_register qureg -> (0 <= index < numAmpsPerChunk qureg)%Z ->
     exists re im,
       reals (stateVec qureg) !! Z.to_nat index = Some re /\
       imags (stateVec qureg) !! Z.to_nat index = Some im /\
       statevec_getProbEl qureg index = Some ((re * re + im * im)%REAL, qureg))
  /\
  (forall (qureg qureg' : QubitRegister R) (index : Z) (p : R),
     statevec_getProbEl qureg index = Some (p, qureg') -> (0 <= p)%R)
  /\
  (forall (libm_cos libm_sin : float -> float) (qureg qureg' : QubitRegister float)
          (index : Z) (p : float),
     statevec_getProbEl (arith := Binary64 libm_cos libm_sin) qureg index
       = Some (p, qureg') ->
     PrimFloat.ltb p 0%float = false)
  /\
  statevec_getProbEl (qureg_06_08 (6 / 10)%R (8 / 10)%R) 0
    = Some (1%R, qureg_06_08 (6 / 10)%R (8 / 10)%R)
  /\
  (forall libm_cos libm_sin : float -> float,
     statevec_getProbEl (arith := Binary64 libm_cos libm_sin)
       (qureg_06_08 0x1.3333333333333p-1%float 0x1.999999999999ap-1%float) 0
     = Some (1%float,
             qureg_06_08 0x1.3333333333333p-1%float 0x1.999999999999ap-1%float)).
Proof.
  split; [ | split; [ | split; [ | split ] ] ].
  - intros REAL arith qureg index (Hn & Hre & Him) Hidx.
    destruct (lookup_valid_index _ _ index Hre Hidx) as [re Hr].
    destruct (lookup_valid_index _ _ index Him Hidx) as [im Hi].
    exists re, im. repeat split; try assumption.
    apply statevec_getProbEl_valid; [ lia | assumption | assumption ].
  - intros qureg qureg' index p Hp.
    destruct (statevec_getProbEl_inv _ _ _ _ Hp) as (re & im & _ & _ & -> & _).
    unfold_real. nra.
  - intros libm_cos libm_sin qureg qureg' index p Hp.
    destruct (statevec_getProbEl_inv _ _ _ _ Hp) as (re & im & _ & _ & -> & _).
    apply binary64_sum_of_squares_not_negative.
  - rewrite (statevec_getProbEl_valid _ 0 (6 / 10)%R (8 / 10)%R);
      [ | lia | reflexivity | reflexivity ].
    unfold_real. do 2 f_equal. lra.
  - intros libm_cos libm_sin. vm_compute. reflexivity.
Qed.

Lemma statevec_getProbEl_witness :
  exists re im,
    reals (stateVec (qureg_06_08 (6 / 10)%R (8 / 10)%R)) !! Z.to_nat 0 = Some re /\
    imags (stateVec (qureg_06_08 (6 / 10)%R (8 / 10)%R)) !! Z.to_nat 0 = Some im /\
    statevec_getProbEl (qureg_06_08 (6 / 10)%R (8 / 10)%R) 0
      = Some ((re * re + im * im)%REAL, qureg_06_08 (6 / 10)%R (8 / 10)%R).
Proof.
  apply (proj1 statevec_getProbEl_norm_sq_pure_read R ExactReal
           (qureg_06_08 (6 / 10)%R (8 / 10)%R) 0%Z).
  - unfold wf_register. cbn. lia.
  - cbn. lia.
Defined.

(** ** Export *)

Lemma string_app_assoc (a b c : string) : (a +:+ b) +:+ c = a +:+ (b +:+ c).
Proof.
  induction a as [ | ch a IH ]; [ reflexivity | ].
  change (String ch ((a +:+ b) +:+ c) = String ch (a +:+ b +:+ c)). now rewrite IH.
Qed.

Lemma string_length_app (a b : string) :
  String.length (a +:+ b) = (String.length a + String.length b)%nat.
Proof.
  induction a as [ | ch a IH ]; [ reflexivity | ].
  change (S (String.length (a +:+ b)) = S (String.length a + String.length b)).
  now rewrite IH.
Qed.

(** *** stdio on an open stream *)

Lemma fprintf_open (id : nat) (name text : string) (w : World) :
  streams w !! id = Some name ->
  fprintf (Stream id) text w = Done tt (write_world id name w text).
Proof.
  intros Hopen. unfold fprintf, write_world. cbn. now rewrite Hopen.
Qed.

Lemma write_world_streams id name w text :
  streams (write_world id name w text) = streams w.
Proof. reflexivity. Qed.

Section WrittenWorld.
Variables (id : nat) (name : string).

Lemma foldl_write_streams (ls : list string) (w : World) :
  streams (foldl (write_world id name) w ls) = streams w.
Proof. revert w. induction ls as [ | l ls IH ]; intros w; cbn; [ | rewrite IH ]; reflexivity. Qed.

Lemma foldl_write_unwritable (ls : list string) (w : World) :
  unwritable (foldl (write_world id name) w ls) = unwritable w.
Proof. revert w. induction ls as [ | l ls IH ]; intros w; cbn; [ | rewrite IH ]; reflexivity. Qed.

Lemma foldl_write_next_stream (ls : list string) (w : World) :
  next_stream (foldl (write_world id name) w ls) = next_stream w.
Proof. revert w. induction ls as [ | l ls IH ]; intros w; cbn; [ | rewrite IH ]; reflexivity. Qed.

Lemma foldl_write_calls (ls : list string) (w : World) :
  calls (foldl (write_world id name) w ls)
  = calls w ++ (call_fprintf (Stream id) <$> ls).
Proof.
  revert w. induction ls as [ | l ls IH ]; intros w; cbn.
  - now rewrite app_nil_r.
  - rewrite IH. cbn. now rewrite <- app_assoc.
Qed.

Lemma foldl_write_files (ls : list string) (w : World) (content : string) :
  files w !! name = Some content ->
  files (foldl (write_world id name) w ls)
  = <[name := content +:+ concat_lines ls]> (files w).
Proof.
  revert w content. induction ls as [ | l ls IH ]; intros w content Hc; cbn.
  - change (concat_lines []) with "". symmetry.
    replace (content +:+ "") with content.
    + now apply insert_id.
    + clear. induction content as [ | ch c IH ]; [ reflexivity | ].
      change (String ch c = String ch (c +:+ "")). now rewrite <- IH.
  - rewrite (IH _ (content +:+ l)).
    + cbn. rewrite Hc. cbn. rewrite insert_insert_eq.
      now rewrite string_app_assoc.
    + cbn. rewrite Hc. cbn. apply lookup_insert_eq.
Qed.

End WrittenWorld.

(** *** The loop *)

Section ExportRun.
Context {REAL : Type} {format : RealFormat REAL}.
Variable QuEST_PREC : Z.
Variable qureg : QubitRegister REAL.

Lemma read_amp_valid (arr : list REAL) (i : nat) (v : REAL) (w : World) :
  arr !! i = Some v -> read_amp arr (Z.of_nat i) w = Done v w.
Proof.
  intros Hv. unfold read_amp.
  replace (0 <=? Z.of_nat i)%Z with true by (symmetry; apply Z.leb_le; lia).
  rewrite Nat2Z.id, Hv. reflexivity.
Qed.

Lemma reportState_body_prints (id : nat) (name : string) (i : nat) (re im : REAL)
    (w : World) :
  reals (stateVec qureg) !! i = Some re ->
  imags (stateVec qureg) !! i = Some im ->
  streams w !! id = Some name ->
  reportState_body QuEST_PREC qureg (Stream id) (Z.of_nat i) w
  = Done tt (if ((QuEST_PREC =? 1) || (QuEST_PREC =? 2) || (QuEST_PREC =? 4))%Z
             then write_world id name w (data_line re im) else w).
Proof.
  intros Hre Him Hopen. unfold reportState_body.
  destruct ((QuEST_PREC =? 1) || (QuEST_PREC =? 2))%Z; cbn [orb].
  - unfold io_bind. rewrite (read_amp_valid _ _ _ _ Hre), (read_amp_valid _ _ _ _ Him).
    now apply fprintf_open.
  - destruct (QuEST_PREC =? 4)%Z; [ | reflexivity ].
    unfold io_bind. rewrite (read_amp_valid _ _ _ _ Hre), (read_amp_valid _ _ _ _ Him).
    now apply fprintf_open.
Qed.

Lemma data_lines_lookup (i : nat) (re im : REAL) :
  reals (stateVec qureg) !! i = Some re ->
  imags (stateVec qureg) !! i = Some im ->
  data_lines qureg !! i = Some (data_line re im).
Proof.
  intros Hre Him. unfold data_lines. rewrite lookup_zip_with, Hre. cbn.
  rewrite Him. reflexivity.
Qed.

Lemma reportState_loop_prints (id : nat) (name : string) (n : nat) :
  forall (i : nat) (w : World),
    (i + n <= length (reals (stateVec qureg)))%nat ->
    (i + n <= length (imags (stateVec qureg)))%nat ->
    (Z.of_nat (i + n) <= numAmpsPerChunk qureg)%Z ->
    streams w !! id = Some name ->
    reportState_loop QuEST_PREC n qureg (Stream id) (Z.of_nat i) w
    = Done tt (foldl (write_world id name) w
                 (take n (drop i (data_texts QuEST_PREC qureg)))).
Proof.
  induction n as [ | n IH ]; intros i w Hre Him Hamps Hopen.
  - reflexivity.
  - destruct (lookup_lt_is_Some_2 (reals (stateVec qureg)) i ltac:(lia)) as [re Hr].
    destruct (lookup_lt_is_Some_2 (imags (stateVec qureg)) i ltac:(lia)) as [im Hi].
    cbn [reportState_loop].
    replace (Z.of_nat i <? numAmpsPerChunk qureg)%Z with true
      by (symmetry; apply Z.ltb_lt; lia).
    unfold io_bind at 1.
    rewrite (reportState_body_prints id name i re im w Hr Hi Hopen).
    replace (Z.of_nat i + 1)%Z with (Z.of_nat (S i)) by lia.
    unfold data_texts in *.
    destruct ((QuEST_PREC =? 1) || (QuEST_PREC =? 2) || (QuEST_PREC =? 4))%Z.
    + rewrite (IH (S i)); [ | lia | lia | lia | exact Hopen ].
      rewrite (drop_S _ _ _ (data_lines_lookup i re im Hr Hi)). reflexivity.
    + rewrite (IH (S i)); [ | lia | lia | lia | exact Hopen ].
      now rewrite !drop_nil, !take_nil.
Qed.

(** The loop stops at the test: past [numAmpsPerChunk] it prints nothing,
    whatever fuel is left. *)
Lemma reportState_loop_past_end (state : FILEptr) (fuel : nat) (index : Z) (w : World) :
  (numAmpsPerChunk qureg <= index)%Z ->
  reportState_loop QuEST_PREC fuel qureg state index w = Done tt w.
Proof.
  intros Hpast. destruct fuel as [ | fuel ]; [ reflexivity | ].
  cbn [reportState_loop].
  replace (index <? numAmpsPerChunk qureg)%Z with false
    by (symmetry; apply Z.ltb_ge; lia).
  reflexivity.
Qed.

Lemma data_lines_length :
  wf_register qureg ->
  length (data_lines qureg) = Z.to_nat (numAmpsPerChunk qureg).
Proof.
  intros (Hn & Hre & Him). unfold data_lines.
  rewrite length_zip_with. lia.
Qed.

(** *** A run in which [fopen] succeeds *)

Lemma reportState_run (w : World) :
  wf_register qureg ->
  export_filename qureg ∉ unwritable w ->
  let id := next_stream w in
  let name := export_filename qureg in
  let texts := header_texts qureg ++ data_texts QuEST_PREC qureg in
  exists w',
    reportState QuEST_PREC qureg w = Done tt w' /\
    files w' = <[name := concat_lines texts]> (files w) /\
    streams w' = delete id (<[id := name]> (streams w)) /\
    unwritable w' = unwritable w /\
    calls w' = calls w ++ [call_fopen name "w" (Stream id)]
                 ++ (call_fprintf (Stream id) <$> texts)
                 ++ [call_fclose (Stream id)].
Proof.
  intros Hwf Hok id name texts.
  pose proof Hwf as (Hn & Hre & Him).
  set (w1 := log_call (call_fopen name "w" (Stream id))
               {| files := <[name := ""]> (files w);
                  streams := <[id := name]> (streams w);
                  next_stream := S id;
                  unwritable := unwritable w;
                  calls := calls w |}).
  assert (Hopen1 : streams w1 !! id = Some name) by apply lookup_insert_eq.
  assert (Hfile1 : files w1 !! name = Some "") by apply lookup_insert_eq.
  set (w2 := foldl (write_world id name) w1 (header_texts qureg)).
  assert (Hhead : (if (chunkId qureg =? 0)%Z then fprintf (Stream id) header_line
                   else io_ret tt) w1 = Done tt w2).
  { unfold w2, header_texts. destruct (chunkId qureg =? 0)%Z; [ | reflexivity ].
    now rewrite (fprintf_open id name _ w1 Hopen1). }
  assert (Hopen2 : streams w2 !! id = Some name).
  { unfold w2. now rewrite foldl_write_streams. }
  set (w3 := foldl (write_world id name) w2 (data_texts QuEST_PREC qureg)).
  assert (Hloop : reportState_loop QuEST_PREC (Z.to_nat (numAmpsPerChunk qureg))
                    qureg (Stream id) 0%Z w2 = Done tt w3).
  { change 0%Z with (Z.of_nat 0).
    rewrite (reportState_loop_prints id name _ 0 w2);
      [ | lia | lia | lia | exact Hopen2 ].
    rewrite drop_0, take_ge; [ reflexivity | ].
    unfold data_texts. destruct (_ || _)%bool; [ | cbn; lia ].
    rewrite data_lines_length by exact Hwf. lia. }
  assert (Hw3 : w3 = foldl (write_world id name) w1 texts).
  { unfold w3, w2, texts. now rewrite foldl_app. }
  assert (Hopen3 : streams w3 !! id = Some name).
  { rewrite Hw3, foldl_write_streams. exact Hopen1. }
  eexists. split.
  - unfold reportState.
    change ("state_rank_" +:+ fmt_d (chunkId qureg) +:+ ".csv") with name.
    unfold io_bind, fopen_w.
    rewrite decide_False by exact Hok. fold id. fold w1.
    fold header_line. rewrite Hhead, Hloop.
    unfold fclose. cbn [log_call streams]. rewrite Hopen3. reflexivity.
  - cbn [files streams unwritable calls log_call].
    rewrite Hw3, foldl_write_streams, foldl_write_unwritable, foldl_write_calls.
    rewrite (foldl_write_files id name texts w1 "" Hfile1).
    repeat split.
    + subst w1. cbn. now rewrite insert_insert_eq.
    + subst w1. cbn. now rewrite <- !app_assoc.
Qed.

End ExportRun.

(** *** [%.12f] on a finite [double] *)

Lemma digit_char_is_digit (d : Z) : (0 <= d < 10)%Z -> is_digit (digit_char d) = true.
Proof.
  intros Hd.
  assert (d = 0 \/ d = 1 \/ d = 2 \/ d = 3 \/ d = 4 \/ d = 5 \/ d = 6 \/ d = 7
          \/ d = 8 \/ d = 9)%Z as Hcases by lia.
  repeat (destruct Hcases as [-> | Hcases]; [ reflexivity | ]).
  now subst d.
Qed.

Lemma fixed_digits_length (n : nat) :
  forall (v : Z) (acc : string),
    String.length (fixed_digits n v acc) = (n + String.length acc)%nat.
Proof.
  induction n as [ | n IH ]; intros v acc; cbn [fixed_digits].
  - reflexivity.
  - rewrite IH. cbn. lia.
Qed.

Lemma fixed_digits_all_digits (n : nat) :
  forall (v : Z) (acc : string),
    all_digits acc = true -> all_digits (fixed_digits n v acc) = true.
Proof.
  induction n as [ | n IH ]; intros v acc Hacc; cbn [fixed_digits].
  - exact Hacc.
  - apply IH. cbn [all_digits]. rewrite Hacc, digit_char_is_digit; [ reflexivity | ].
    apply Z.mod_pos_bound. lia.
Qed.

Lemma round_scaled_nonneg (m e : Z) : (0 <= m)%Z -> (0 <= round_scaled m e)%Z.
Proof.
  intros Hm. unfold round_scaled.
  destruct (0 <=? e)%Z eqn:He.
  - apply Z.leb_le in He.
    pose proof (Z.pow_nonneg 2 e ltac:(lia)). nia.
  - assert (0 < 2 ^ (- e))%Z as Hden by (apply Z.pow_pos_nonneg; lia).
    assert (0 <= m * 10 ^ 12 / 2 ^ (- e))%Z as Hq by (apply Z.div_pos; lia).
    cbv zeta.
    destruct (_ <? _)%Z; [ lia | ].
    destruct (_ && _)%bool; lia.
Qed.

Lemma fmt_12f_binary64_finite (f : float) :
  is_finite f = true ->
  exists (s : bool) (n : Z) (frac : string),
    (0 <= n)%Z /\
    fmt_12f_binary64 f = fmt_sign s +:+ pretty n +:+ "." +:+ frac /\
    String.length frac = 12%nat /\ all_digits frac = true.
Proof.
  unfold is_finite, fmt_12f_binary64.
  destruct (Prim2SF f) as [ s | s | | s m e ]; try discriminate; intros _.
  - exists s, 0%Z, (fixed_digits 12 0 "").
    split; [ lia | split; [ reflexivity | split ] ].
    + apply fixed_digits_length.
    + now apply fixed_digits_all_digits.
  - cbv zeta. set (q := round_scaled (Z.pos m) e).
    exists s, (q / 10 ^ 12)%Z, (fixed_digits 12 (q mod 10 ^ 12) "").
    split; [ | split; [ reflexivity | split ] ].
    + apply Z.div_pos; [ apply round_scaled_nonneg | ]; lia.
    + apply fixed_digits_length.
    + now apply fixed_digits_all_digits.
Qed.

(** *** The exported file *)

(** C8. For every register, where [QuEST_PREC] is 1, 2 or 4 and [fopen]
    succeeds, [reportState] leaves in the file state_rank_<chunkId>.csv the
    header line "real, imag" exactly when chunkId is 0, followed by
    numAmpsPerChunk data lines, the line of index i being the real and the
    imaginary part of amplitude i, each converted by %.12f; on a finite
    [double] that conversion ends in a point and twelve decimal digits. *)
Theorem reportState_writes_csv :
  (forall (REAL : Type) (format : RealFormat REAL) (QuEST_PREC : Z)
          (qureg : QubitRegister REAL) (w : World),
     (QuEST_PREC = 1 \/ QuEST_PREC = 2 \/ QuEST_PREC = 4)%Z ->
     wf_register qureg ->
     "state_rank_" +:+ pretty (chunkId qureg) +:+ ".csv" ∉ unwritable w ->
     exists w',
       reportState QuEST_PREC qureg w = Done tt w' /\
       files w' =
         <["state_rank_" +:+ pretty (chunkId qureg) +:+ ".csv" :=
             concat_lines ((if (chunkId qureg =? 0)%Z then ["real, imag
"] else []) ++ data_lines qureg)]> (files w) /\
       length (data_lines qureg) = Z.to_nat (numAmpsPerChunk qureg) /\
       (forall (i : nat) (re im : REAL),
          reals (stateVec qureg) !! i = Some re ->
          imags (stateVec qureg) !! i = Some im ->
          data_lines qureg !! i
          = Some (fmt_12f re +:+ ", " +:+ fmt_12f im +:+ "
")))
  /\
  (forall f : float,
     is_finite f = true ->
     exists (s : bool) (n : Z) (frac : string),
       (0 <= n)%Z /\
       fmt_12f f = fmt_sign s +:+ pretty n +:+ "." +:+ frac /\
       String.length frac = 12%nat /\ all_digits frac = true).
Proof.
  split.
  - intros REAL format QuEST_PREC qureg w Hprec Hwf Hok.
    destruct (reportState_run QuEST_PREC qureg w Hwf Hok)
      as (w' & Hrun & Hfiles & _).
    exists w'. split; [ exact Hrun | ]. split; [ | split ].
    + rewrite Hfiles. unfold export_filename, header_texts, data_texts, header_line.
      replace ((QuEST_PREC =? 1) || (QuEST_PREC =? 2) || (QuEST_PREC =? 4))%Z
        with true; [ reflexivity | ].
      symmetry. destruct Hprec as [-> | [-> | ->]]; reflexivity.
    + now apply data_lines_length.
    + intros i re im Hre Him. now apply data_lines_lookup.
  - exact fmt_12f_binary64_finite.
Qed.

Lemma reportState_writes_csv_witness :
  exists w',
    reportState 2 qureg_scenario empty_world = Done tt w' /\
    files w' =
      <["state_rank_" +:+ pretty (chunkId qureg_scenario) +:+ ".csv" :=
          concat_lines ((if (chunkId qureg_scenario =? 0)%Z then ["real, imag
"] else []) ++ data_lines qureg_scenario)]> (files empty_world) /\
    length (data_lines qureg_scenario) = Z.to_nat (numAmpsPerChunk qureg_scenario) /\
    (forall (i : nat) (re im : float),
       reals (stateVec qureg_scenario) !! i = Some re ->
       imags (stateVec qureg_scenario) !! i = Some im ->
       data_lines qureg_scenario !! i
       = Some (fmt_12f re +:+ ", " +:+ fmt_12f im +:+ "
")).
Proof.
  apply (proj1 reportState_writes_csv float Binary64Format 2%Z qureg_scenario
           empty_world).
  - right; left; reflexivity.
  - unfold wf_register. cbn. lia.
  - cbn. apply not_elem_of_empty.
Defined.

(** The export scenario: two data lines after the header, twelve decimals. *)
Lemma reportState_scenario :
  files (outcome_world (reportState 2 qureg_scenario empty_world))
    !! "state_rank_0.csv"
  = Some "real, imag
1.000000000000, 0.000000000000
0.000000000000, 0.000000000000
".
Proof. vm_compute. reflexivity. Qed.

(** *** Streams: acquisition and release *)

Lemma no_fopen_ret {A} (a : A) : no_fopen (io_ret a).
Proof. intros w. exists []. cbn. now rewrite app_nil_r. Qed.

Lemma no_fopen_undefined {A} : no_fopen (@io_undefined A).
Proof. intros w. exists []. cbn. now rewrite app_nil_r. Qed.

Lemma no_fopen_bind {A B} (m : IO A) (k : A -> IO B) :
  no_fopen m -> (forall a, no_fopen (k a)) -> no_fopen (io_bind m k).
Proof.
  intros Hm Hk w. destruct (Hm w) as (l1 & Hl1 & Hf1). unfold io_bind.
  destruct (m w) as [a w1 | w1]; cbn in Hl1.
  - destruct (Hk a w1) as (l2 & Hl2 & Hf2). exists (l1 ++ l2). split.
    + now rewrite Hl2, Hl1, <- app_assoc.
    + rewrite forallb_app, Hf1, Hf2. reflexivity.
  - exists l1. now split.
Qed.

Lemma no_fopen_fprintf (stream : FILEptr) (text : string) : no_fopen (fprintf stream text).
Proof.
  intros w. exists [call_fprintf stream text]. split; [ | reflexivity ].
  unfold fprintf. destruct stream as [ | id ]; [ reflexivity | ].
  cbn. destruct (streams w !! id); reflexivity.
Qed.

Lemma no_fopen_fclose (stream : FILEptr) : no_fopen (fclose stream).
Proof.
  intros w. exists [call_fclose stream]. split; [ | reflexivity ].
  unfold fclose. destruct stream as [ | id ]; [ reflexivity | ].
  cbn. destruct (streams w !! id); reflexivity.
Qed.

Lemma no_fopen_read_amp {REAL} (arr : list REAL) (index : Z) :
  no_fopen (read_amp arr index).
Proof.
  unfold read_amp. destruct (if (0 <=? index)%Z then _ else _).
  - apply no_fopen_ret.
  - apply no_fopen_undefined.
Qed.

Lemma no_fopen_body {REAL} {format : RealFormat REAL} (QuEST_PREC : Z)
    (qureg : QubitRegister REAL) (state : FILEptr) (index : Z) :
  no_fopen (reportState_body QuEST_PREC qureg state index).
Proof.
  unfold reportState_body.
  destruct (_ || _)%bool; [ | destruct (_ =? _)%Z ];
    try apply no_fopen_ret;
    (apply no_fopen_bind; [ apply no_fopen_read_amp | intros re ];
     apply no_fopen_bind; [ apply no_fopen_read_amp | intros im ];
     apply no_fopen_fprintf).
Qed.

Lemma no_fopen_loop {REAL} {format : RealFormat REAL} (QuEST_PREC : Z)
    (qureg : QubitRegister REAL) (state : FILEptr) (n : nat) :
  forall index, no_fopen (reportState_loop QuEST_PREC n qureg state index).
Proof.
  induction n as [ | n IH ]; intros index; cbn [reportState_loop].
  - apply no_fopen_ret.
  - destruct (index <? numAmpsPerChunk qureg)%Z; [ | apply no_fopen_ret ].
    apply no_fopen_bind; [ apply no_fopen_body | intros _; apply IH ].
Qed.

(** Every run makes one [fopen] call, its first. *)
Lemma reportState_single_fopen {REAL} {format : RealFormat REAL} (QuEST_PREC : Z)
    (qureg : QubitRegister REAL) (w : World) :
  exists (ret : FILEptr) (rest : list StdioCall),
    calls (outcome_world (reportState QuEST_PREC qureg w))
    = calls w ++ call_fopen (export_filename qureg) "w" ret :: rest /\
    forallb (fun c => negb (is_fopen c)) rest = true.
Proof.
  unfold reportState.
  change ("state_rank_" +:+ fmt_d (chunkId qureg) +:+ ".csv")
    with (export_filename qureg).
  set (name := export_filename qureg).
  assert (Hrest : forall state,
            no_fopen
              ((if (chunkId qureg =? 0)%Z then fprintf state "real, imag
" else io_ret tt) ;;;
               reportState_loop QuEST_PREC (Z.to_nat (numAmpsPerChunk qureg))
                 qureg state 0%Z ;;;
               fclose state)).
  { intros state. apply no_fopen_bind.
    - destruct (_ =? _)%Z; [ apply no_fopen_fprintf | apply no_fopen_ret ].
    - intros _. apply no_fopen_bind; [ apply no_fopen_loop | ].
      intros _. apply no_fopen_fclose. }
  unfold io_bind at 1. unfold fopen_w.
  destruct (decide (name ∈ unwritable w)).
  - destruct (Hrest NULL (log_call (call_fopen name "w" NULL) w)) as (l & Hl & Hf).
    exists NULL, l. split; [ | exact Hf ].
    rewrite Hl. cbn. now rewrite <- app_assoc.
  - set (w1 := log_call _ _).
    destruct (Hrest (Stream (next_stream w)) w1) as (l & Hl & Hf).
    exists (Stream (next_stream w)), l. split; [ | exact Hf ].
    rewrite Hl. subst w1. cbn. now rewrite <- app_assoc.
Qed.

(** C9, as stated, fails: where [fopen] fails, [reportState] hands the null
    stream to [fprintf] and the run ends there, undefined, with nothing
    closed. *)
Lemma reportState_writes_null_stream :
  exists w',
    reportState 2 qureg_scenario readonly_world = Undefined w' /\
    calls w' = [call_fopen "state_rank_0.csv" "w" NULL;
                call_fprintf NULL "real, imag
"].
Proof. eexists. split; vm_compute; reflexivity. Qed.

(** C9, amended. On every run of [reportState] in which [fopen] succeeds,
    every write goes to the stream [fopen] returned and that stream is
    closed once, after the last write, and is no longer open on return;
    no other stream is touched.  On every run, successful or not,
    [reportState] calls [fopen] exactly once, first: it never retries. *)
Theorem reportState_closes_its_stream :
  (forall (REAL : Type) (format : RealFormat REAL) (QuEST_PREC : Z)
          (qureg : QubitRegister REAL) (w : World),
     wf_register qureg ->
     export_filename qureg ∉ unwritable w ->
     exists (w' : World) (texts : list string),
       reportState QuEST_PREC qureg w = Done tt w' /\
       calls w' = calls w
                  ++ [call_fopen (export_filename qureg) "w" (Stream (next_stream w))]
                  ++ (call_fprintf (Stream (next_stream w)) <$> texts)
                  ++ [call_fclose (Stream (next_stream w))] /\
       streams w' !! next_stream w = None /\
       (forall j, j <> next_stream w -> streams w' !! j = streams w !! j))
  /\
  (forall (REAL : Type) (format : RealFormat REAL) (QuEST_PREC : Z)
          (qureg : QubitRegister REAL) (w : World),
     exists (ret : FILEptr) (rest : list StdioCall),
       calls (outcome_world (reportState QuEST_PREC qureg w))
       = calls w ++ call_fopen (export_filename qureg) "w" ret :: rest /\
       forallb (fun c => negb (is_fopen c)) rest = true).
Proof.
  split.
  - intros REAL format QuEST_PREC qureg w Hwf Hok.
    destruct (reportState_run QuEST_PREC qureg w Hwf Hok)
      as (w' & Hrun & _ & Hstreams & _ & Hcalls).
    exists w', (header_texts qureg ++ data_texts QuEST_PREC qureg).
    split; [ exact Hrun | ]. split; [ exact Hcalls | ]. split.
    + rewrite Hstreams. apply lookup_delete_eq.
    + intros j Hj. rewrite Hstreams.
      rewrite lookup_delete_ne by congruence.
      now rewrite lookup_insert_ne by congruence.
  - intros REAL format QuEST_PREC qureg w. apply reportState_single_fopen.
Qed.

Lemma reportState_closes_its_stream_witness :
  exists (w' : World) (texts : list string),
    reportState 2 qureg_scenario empty_world = Done tt w' /\
    calls w' = calls empty_world
               ++ [call_fopen (export_filename qureg_scenario) "w"
                     (Stream (next_stream empty_world))]
               ++ (call_fprintf (Stream (next_stream empty_world)) <$> texts)
               ++ [call_fclose (Stream (next_stream empty_world))] /\
    streams w' !! next_stream empty_world = None /\
    (forall j, j <> next_stream empty_world ->
               streams w' !! j = streams empty_world !! j).
Proof.
  apply (proj1 reportState_closes_its_stream float Binary64Format 2%Z
           qureg_scenario empty_world).
  - unfold wf_register. cbn. lia.
  - cbn. apply not_elem_of_empty.
Defined.

(** * Further properties *)

(** ** Index shifting *)

Lemma shiftIndices_loop_eq (shift : Z) (fuel : nat) :
  forall pre post : list Z,
    shiftIndices_loop fuel (pre ++ post) (Z.of_nat (length pre + fuel)) shift
      (Z.of_nat (length pre))
    = if shift_defined post fuel shift
      then Some (pre ++ shifted post fuel shift) else None.
Proof.
  induction fuel as [ | fuel IH ]; intros pre post.
  - unfold shift_defined, shifted. cbn. now rewrite drop_0.
  - cbn [shiftIndices_loop].
    replace (Z.of_nat (length pre) <? Z.of_nat (length pre + S fuel))%Z with true
      by (symmetry; apply Z.ltb_lt; lia).
    rewrite Nat2Z.id, lookup_app_r by lia.
    replace (length pre - length pre)%nat with 0%nat by lia.
    destruct post as [ | v post ]; [ reflexivity | ].
    cbn [lookup list_lookup]. unfold int_add, shift_defined. cbn [take forallb length].
    destruct (in_int_range (v + shift)) eqn:Hv.
    + replace (<[length pre := (v + shift)%Z]> (pre ++ v :: post))
        with ((pre ++ [(v + shift)%Z]) ++ post).
      2:{ rewrite insert_app_r_alt by lia. rewrite Nat.sub_diag.
          now rewrite <- app_assoc. }
      replace (Z.of_nat (length pre) + 1)%Z
        with (Z.of_nat (length (pre ++ [(v + shift)%Z])))
        by (rewrite length_app; cbn; lia).
      replace (length pre + S fuel)%nat
        with (length (pre ++ [(v + shift)%Z]) + fuel)%nat
        by (rewrite length_app; cbn; lia).
      rewrite IH. unfold shift_defined, shifted.
      change (S fuel <=? S (length post))%nat with (fuel <=? length post)%nat.
      rewrite andb_true_l.
      destruct (_ && _)%bool; [ | reflexivity ].
      now rewrite <- app_assoc.
    + now rewrite andb_false_r.
Qed.

(** The call as a whole: the shifted array where that is defined. *)
Lemma shiftIndices_eq (indices : list Z) (numIndices shift : Z) :
  shiftIndices indices numIndices shift
  = if shift_defined indices (Z.to_nat numIndices) shift
    then Some (shifted indices (Z.to_nat numIndices) shift) else None.
Proof.
  unfold shiftIndices. destruct (Z_lt_le_dec numIndices 0) as [Hneg | Hpos].
  - replace (Z.to_nat numIndices) with 0%nat by lia.
    unfold shift_defined, shifted. cbn. now rewrite drop_0.
  - pose proof (shiftIndices_loop_eq shift (Z.to_nat numIndices) [] indices) as Hl.
    cbn [length app Nat.add] in Hl. rewrite Z2Nat.id in Hl by lia. exact Hl.
Qed.

Lemma shifted_length (indices : list Z) (n : nat) (shift : Z) :
  length (shifted indices n shift) = length indices.
Proof.
  unfold shifted. rewrite length_app, length_fmap, length_take, length_drop. lia.
Qed.



Lemma shift_defined_inv (indices : list Z) (n : nat) (shift : Z) :
  shift_defined indices n shift = true ->
  (n <= length indices)%nat /\
  Forall (fun v => in_int_range (v + shift) = true) (take n indices).
Proof.
  unfold shift_defined. intros [Hn Hall]%andb_true_iff. split.
  - now apply Nat.leb_le.
  - apply Forall_forall. intros v Hv.
    rewrite forallb_forall in Hall. now apply Hall, list_elem_of_In.
Qed.

Lemma shift_defined_intro (indices : list Z) (n : nat) (shift : Z) :
  (n <= length indices)%nat ->
  Forall (fun v => in_int_range (v + shift) = true) (take n indices) ->
  shift_defined indices n shift = true.
Proof.
  intros Hn Hall. unfold shift_defined. apply andb_true_iff. split.
  - now apply Nat.leb_le.
  - apply forallb_forall. intros v Hv. rewrite Forall_forall in Hall.
    now apply Hall, list_elem_of_In.
Qed.


(** X1. Where [numIndices] (taken as 0 when negative) is at most the length
    of the array and each of the first [numIndices] entries, shifted, is
    within [INT_MIN, INT_MAX], [shiftIndices] leaves the array with [shift]
    added to each of those entries and the rest as it was. *)
Theorem shiftIndices_shifts_prefix (indices : list Z) (numIndices shift : Z) :
  (Z.to_nat numIndices <= length indices)%nat ->
  Forall (fun v => INT_MIN <= v + shift <= INT_MAX)%Z
         (take (Z.to_nat numIndices) indices) ->
  shiftIndices indices numIndices shift
  = Some (((fun v => v + shift)%Z <$> take (Z.to_nat numIndices) indices)
          ++ drop (Z.to_nat numIndices) indices).
Proof.
  intros Hlen Hrange. rewrite shiftIndices_eq.
  rewrite shift_defined_intro; [ reflexivity | exact Hlen | ].
  eapply Forall_impl; [ exact Hrange | ].
  intros v Hv. cbv beta in *. unfold in_int_range. apply andb_true_iff.
  split; apply Z.leb_le; lia.
Qed.

Lemma shiftIndices_shifts_prefix_witness :
  shiftIndices [1; 2; 3; 4]%Z 3 10
  = Some (((fun v => v + 10)%Z <$> take (Z.to_nat 3) [1; 2; 3; 4]%Z)
          ++ drop (Z.to_nat 3) [1; 2; 3; 4]%Z).
Proof.
  apply (shiftIndices_shifts_prefix [1; 2; 3; 4]%Z 3 10).
  - cbn. lia.
  - cbn. repeat constructor; vm_compute; discriminate.
Defined.

(** X2. [shiftIndices] is defined exactly when the array has at least
    [numIndices] entries and none of the first [numIndices] additions
    overflows [int]: otherwise it reads past the array or overflows. *)
Theorem shiftIndices_defined_iff (indices : list Z) (numIndices shift : Z) :
  is_Some (shiftIndices indices numIndices shift) <->
  (Z.to_nat numIndices <= length indices)%nat /\
  Forall (fun v => INT_MIN <= v + shift <= INT_MAX)%Z
         (take (Z.to_nat numIndices) indices).
Proof.
  rewrite shiftIndices_eq. split.
  - destruct (shift_defined _ _ _) eqn:Hd; [ | intros [? [=]] ].
    intros _. apply shift_defined_inv in Hd as [Hlen Hall]. split; [ exact Hlen | ].
    eapply Forall_impl; [ exact Hall | ].
    intros v Hv. cbv beta in *. unfold in_int_range in Hv.
    apply andb_true_iff in Hv as [H1 H2]. apply Z.leb_le in H1, H2. lia.
  - intros [Hlen Hrange]. rewrite shift_defined_intro; [ eauto | exact Hlen | ].
    eapply Forall_impl; [ exact Hrange | ].
    intros v Hv. cbv beta in *. unfold in_int_range. apply andb_true_iff.
    split; apply Z.leb_le; lia.
Qed.

(** X3. [shiftIndices] never changes the length of the array nor an entry
    at index [numIndices] or beyond; with [numIndices <= 0] it changes
    nothing. *)
Theorem shiftIndices_keeps_the_rest (indices indices' : list Z)
    (numIndices shift : Z) :
  shiftIndices indices numIndices shift = Some indices' ->
  length indices' = length indices /\
  (forall i : nat, (Z.to_nat numIndices <= i)%nat -> indices' !! i = indices !! i) /\
  ((numIndices <= 0)%Z -> indices' = indices).
Proof.
  rewrite shiftIndices_eq.
  destruct (shift_defined _ _ _) eqn:Hd; [ | discriminate ].
  intros [= <-]. apply shift_defined_inv in Hd as [Hlen _].
  split; [ apply shifted_length | ]. split.
  - intros i Hi. unfold shifted.
    rewrite lookup_app_r by (rewrite length_fmap, length_take; lia).
    rewrite length_fmap, length_take, lookup_drop. f_equal. lia.
  - intros Hneg. replace (Z.to_nat numIndices) with 0%nat by lia.
    unfold shifted. cbn. now rewrite drop_0.
Qed.

Lemma shiftIndices_keeps_the_rest_witness :
  length [11; 12; 13; 4]%Z = length [1; 2; 3; 4]%Z /\
  (forall i : nat, (Z.to_nat 3 <= i)%nat ->
                   [11; 12; 13; 4]%Z !! i = [1; 2; 3; 4]%Z !! i) /\
  ((3 <= 0)%Z -> [11; 12; 13; 4]%Z = [1; 2; 3; 4]%Z).
Proof.
  apply (shiftIndices_keeps_the_rest [1; 2; 3; 4]%Z [11; 12; 13; 4]%Z 3 10).
  vm_compute. reflexivity.
Defined.





(** ** Hashing *)

Lemma hashString_step (bits h c : Z) :
  (0 <= bits)%Z ->
  to_ulong bits
    (to_ulong bits (to_ulong bits (Z.shiftl (h mod 2 ^ bits) 5) + h mod 2 ^ bits)
     + to_ulong bits c)
  = ((33 * h + c) mod 2 ^ bits)%Z.
Proof.
  intros Hbits. unfold to_ulong. rewrite Z.shiftl_mul_pow2 by lia.
  set (M := (2 ^ bits)%Z).
  assert (0 < M)%Z as HM by (apply Z.pow_pos_nonneg; lia).
  rewrite Zplus_mod_idemp_l, Zplus_mod_idemp_r, <- Z.add_assoc, Zplus_mod_idemp_l.
  replace (h mod M * 2 ^ 5 + (h mod M + c))%Z with (h mod M * 33 + c)%Z by lia.
  rewrite <- Zplus_mod_idemp_l, Zmult_mod_idemp_l, Zplus_mod_idemp_l.
  f_equal. lia.
Qed.

Lemma hashString_loop_horner (bits : Z) (chars rest : list Z) :
  (0 <= bits)%Z ->
  Forall (fun c => c <> 0%Z) chars ->
  forall h : Z,
    hashString_loop bits (chars ++ 0%Z :: rest) (h mod 2 ^ bits)
    = Some (fold_left (fun h c => 33 * h + c)%Z chars h mod 2 ^ bits)%Z.
Proof.
  intros Hbits Hchars. induction Hchars as [ | c chars Hc _ IH ]; intros h.
  - reflexivity.
  - cbn [app hashString_loop fold_left].
    replace (c =? 0)%Z with false by (symmetry; now apply Z.eqb_neq).
    rewrite hashString_step by exact Hbits. apply IH.
Qed.

(** X6. For a C string (chars, none of them NUL, then NUL, then anything)
    and an [unsigned long] of at least 32 bits, [hashString] returns
    Horner's value of the chars with multiplier 33 from 5381, reduced
    modulo 2^bits: the shift-and-add of the loop is the [hash * 33 + c] of
    its comment, and nothing after the first NUL is read. *)
Theorem hashString_is_djb2 (bits : Z) (chars rest : list Z) :
  (32 <= bits)%Z ->
  Forall (fun c => c <> 0%Z) chars ->
  hashString bits (chars ++ 0%Z :: rest) = Some (djb2 chars mod 2 ^ bits)%Z.
Proof.
  intros Hbits Hchars. unfold hashString, djb2.
  rewrite <- (hashString_loop_horner bits chars rest ltac:(lia) Hchars 5381).
  f_equal. symmetry. apply Z.mod_small. split; [ lia | ].
  apply Z.lt_le_trans with (2 ^ 32)%Z; [ reflexivity | ].
  apply Z.pow_le_mono_r; lia.
Qed.

Lemma hashString_is_djb2_witness :
  hashString 64 ([97; 98; 99] ++ 0 :: [120])%Z
  = Some (djb2 [97; 98; 99]%Z mod 2 ^ 64)%Z.
Proof.
  apply (hashString_is_djb2 64 [97; 98; 99]%Z [120]%Z).
  - lia.
  - repeat constructor; discriminate.
Defined.

Lemma hashString_loop_none (bits : Z) (str : list Z) :
  forall h : Z, hashString_loop bits str h = None <-> ~ In 0%Z str.
Proof.
  induction str as [ | c str IH ]; intros h; cbn [hashString_loop In].
  - tauto.
  - destruct (Z.eqb_spec c 0) as [-> | Hc].
    + split; [ discriminate | tauto ].
    + rewrite IH. split; [ intros Hn [Hz | Hin]; congruence | tauto ].
Qed.

(** X7. [hashString] has no value exactly when the buffer holds no NUL: it
    then reads past the end of the buffer. *)
Theorem hashString_none_iff_unterminated (bits : Z) (str : list Z) :
  hashString bits str = None <-> ~ In 0%Z str.
Proof. apply hashString_loop_none. Qed.



(** ** Parameter report *)

Lemma reportQubitRegisterParams_inv {REAL} (bits : Z) (qureg : QubitRegister REAL)
    (texts : list string) :
  reportQubitRegisterParams bits qureg = Some texts ->
  (0 <= numQubitsInStateVec qureg < bits - 1)%Z /\
  numChunks qureg <> 0%Z /\
  texts =
    if (chunkId qureg =? 0)%Z then
      [ "QUBITS:
";
        "Number of qubits is " +:+ pretty (numQubitsInStateVec qureg) +:+ ".
";
        "Number of amps is " +:+ pretty (2 ^ numQubitsInStateVec qureg)%Z +:+ ".
";
        "Number of amps per rank is "
          +:+ pretty (Z.quot (2 ^ numQubitsInStateVec qureg) (numChunks qureg)) +:+ ".
" ]
    else [].
Proof.
  unfold reportQubitRegisterParams, long_shl_1, c_div.
  destruct (_ && _)%bool eqn:Hn; cbn; [ | discriminate ].
  destruct (Z.eqb_spec (numChunks qureg) 0) as [Hc | Hc]; cbn; [ discriminate | ].
  apply andb_true_iff in Hn as [Hn1 Hn2].
  apply Z.leb_le in Hn1. apply Z.ltb_lt in Hn2.
  rewrite Z.shiftl_1_l.
  destruct (chunkId qureg =? 0)%Z; intros [= <-]; repeat split; lia.
Qed.

(** X9. [reportQubitRegisterParams] is defined exactly when
    [numQubitsInStateVec] is at least 0 and below the width of [long] less
    one, and [numChunks] is not zero: the shift and the division come
    before the test of [chunkId], so a zero [numChunks] is a division by
    zero on every chunk, also where nothing is printed. *)
Theorem reportQubitRegisterParams_defined_iff {REAL} (bits : Z)
    (qureg : QubitRegister REAL) :
  is_Some (reportQubitRegisterParams bits qureg) <->
  (0 <= numQubitsInStateVec qureg < bits - 1)%Z /\ numChunks qureg <> 0%Z.
Proof.
  split.
  - intros [texts Ht]. apply reportQubitRegisterParams_inv in Ht. tauto.
  - intros [Hn Hc]. unfold reportQubitRegisterParams, long_shl_1, c_div.
    replace ((0 <=? numQubitsInStateVec qureg)
             && (numQubitsInStateVec qureg <? bits - 1))%Z with true.
    2:{ symmetry. apply andb_true_iff. split; [ apply Z.leb_le | apply Z.ltb_lt ]; lia. }
    cbn. replace (numChunks qureg =? 0)%Z with false
      by (symmetry; now apply Z.eqb_neq).
    cbn. destruct (chunkId qureg =? 0)%Z; eauto.
Qed.

(** X10. Where it is defined, [reportQubitRegisterParams] prints on chunk 0
    only: four lines there, nothing on any other chunk. *)
Theorem reportQubitRegisterParams_chunk_0_only {REAL} (bits : Z)
    (qureg : QubitRegister REAL) (texts : list string) :
  reportQubitRegisterParams bits qureg = Some texts ->
  (chunkId qureg = 0%Z -> length texts = 4%nat) /\
  (chunkId qureg <> 0%Z -> texts = []).
Proof.
  intros Ht. apply reportQubitRegisterParams_inv in Ht as (_ & _ & ->).
  destruct (Z.eqb_spec (chunkId qureg) 0) as [Hz | Hnz]; split;
    intros Hc; try reflexivity; contradiction.
Qed.

Lemma reportQubitRegisterParams_chunk_0_only_witness :
  (chunkId (mkQubitRegister (mkComplexArray [1%R] [0%R]) 3 4 1 2) = 0%Z ->
   length (@nil string) = 4%nat) /\
  (chunkId (mkQubitRegister (mkComplexArray [1%R] [0%R]) 3 4 1 2) <> 0%Z ->
   @nil string = []).
Proof.
  apply (reportQubitRegisterParams_chunk_0_only 64
           (mkQubitRegister (mkComplexArray [1%R] [0%R]) 3 4 1 2) []).
  vm_compute. reflexivity.
Defined.

(** X11. On chunk 0 of a register that keeps the invariant
    [numAmpsPerChunk * numChunks = 2^numQubitsInStateVec], with
    [numChunks > 0] and the qubit count within the width of [long], the
    report prints the qubit count, 2^numQubitsInStateVec as the number of
    amplitudes and the register's own [numAmpsPerChunk] as the number per
    rank. *)
Theorem reportQubitRegisterParams_reports_register {REAL} (bits : Z)
    (qureg : QubitRegister REAL) :
  (0 <= numQubitsInStateVec qureg < bits - 1)%Z ->
  (0 < numChunks qureg)%Z ->
  (numAmpsPerChunk qureg * numChunks qureg = 2 ^ numQubitsInStateVec qureg)%Z ->
  chunkId qureg = 0%Z ->
  reportQubitRegisterParams bits qureg
  = Some [ "QUBITS:
";
           "Number of qubits is " +:+ pretty (numQubitsInStateVec qureg) +:+ ".
";
           "Number of amps is " +:+ pretty (2 ^ numQubitsInStateVec qureg)%Z +:+ ".
";
           "Number of amps per rank is " +:+ pretty (numAmpsPerChunk qureg) +:+ ".
" ].
Proof.
  intros Hn Hc Hinv Hid.
  assert (numChunks qureg <> 0%Z) as Hnz by lia.
  assert (exists texts, reportQubitRegisterParams bits qureg = Some texts)
    as [texts Ht].
  { unfold reportQubitRegisterParams, long_shl_1, c_div.
    replace ((0 <=? numQubitsInStateVec qureg)
             && (numQubitsInStateVec qureg <? bits - 1))%Z with true.
    2:{ symmetry. apply andb_true_iff. split; [ apply Z.leb_le | apply Z.ltb_lt ]; lia. }
    cbn. replace (numChunks qureg =? 0)%Z with false
      by (symmetry; now apply Z.eqb_neq).
    cbn. destruct (chunkId qureg =? 0)%Z; eauto. }
  rewrite Ht. apply reportQubitRegisterParams_inv in Ht as (_ & _ & ->).
  rewrite Hid. cbn [Z.eqb]. rewrite <- Hinv, Z.quot_mul by lia. reflexivity.
Qed.

Lemma reportQubitRegisterParams_reports_register_witness :
  reportQubitRegisterParams 64 (mkQubitRegister (mkComplexArray [1%R] [0%R]) 3 4 0 2)
  = Some [ "QUBITS:
";
           "Number of qubits is " +:+ pretty 3%Z +:+ ".
";
           "Number of amps is " +:+ pretty (2 ^ 3)%Z +:+ ".
";
           "Number of amps per rank is " +:+ pretty 4%Z +:+ ".
" ].
Proof.
  apply (reportQubitRegisterParams_reports_register 64
           (mkQubitRegister (mkComplexArray [1%R] [0%R]) 3 4 0 2)).
  - cbn. lia.
  - cbn. lia.
  - reflexivity.
  - reflexivity.
Defined.

(** ** Vectors over the exact reals *)

(** X12. Over the exact reals [getVectorMagnitude] is never negative, is
    zero for the zero vector only, and scales with the absolute value of a
    factor: the magnitude of c*v is |c| times the magnitude of v. *)
Theorem getVectorMagnitude_norm (v : Vector R) (c : R) :
  (0 <= getVectorMagnitude v)%R /\
  (getVectorMagnitude v = 0%R <-> x v = 0%R /\ y v = 0%R /\ z v = 0%R) /\
  getVectorMagnitude (scale_axis c v) = (Rabs c * getVectorMagnitude v)%R.
Proof.
  pose proof (sum_squares_nonneg (x v) (y v) (z v)) as Hge.
  split; [ | split ].
  - unfold getVectorMagnitude. unfold_real. apply sqrt_pos.
  - unfold getVectorMagnitude. unfold_real. split.
    + intros Hz. apply sqrt_eq_0 in Hz; [ | exact Hge ].
      repeat split; nra.
    + intros (-> & -> & ->).
      replace (0 * 0 + 0 * 0 + 0 * 0)%R with 0%R by ring. apply sqrt_0.
  - unfold getVectorMagnitude, scale_axis. unfold_real.
    replace (c * x v * (c * x v) + c * y v * (c * y v) + c * z v * (c * z v))%R
      with (Rsqr c * (x v * x v + y v * y v + z v * z v))%R
      by (unfold Rsqr; ring).
    rewrite sqrt_mult by (try apply Rle_0_sqr; exact Hge).
    now rewrite sqrt_Rsqr_abs.
Qed.

(** X13. Over the exact reals, normalising a non-zero axis twice is
    normalising it once, so [getAlphaBetaFromRotation] returns the same
    pair whether or not its caller has normalised the axis. *)
Theorem getUnitVector_idempotent (angle : R) (v : Vector R) :
  nonzero_axis v ->
  getUnitVector (getUnitVector v) = getUnitVector v /\
  getAlphaBetaFromRotation angle (getUnitVector v)
  = getAlphaBetaFromRotation angle v.
Proof.
  intros Hv.
  assert (getUnitVector (getUnitVector v) = getUnitVector v) as Hidem
    by (apply getUnitVector_of_unit, getUnitVector_magnitude, Hv).
  split; [ exact Hidem | ].
  rewrite !getAlphaBetaFromRotation_unfold. now rewrite Hidem.
Qed.

Lemma getUnitVector_idempotent_witness :
  getUnitVector (getUnitVector {| x := 0%R; y := 3%R; z := 4%R |})
  = getUnitVector {| x := 0%R; y := 3%R; z := 4%R |} /\
  getAlphaBetaFromRotation 1%R (getUnitVector {| x := 0%R; y := 3%R; z := 4%R |})
  = getAlphaBetaFromRotation 1%R {| x := 0%R; y := 3%R; z := 4%R |}.
Proof.
  apply (getUnitVector_idempotent 1%R {| x := 0%R; y := 3%R; z := 4%R |}).
  right; left. cbn. lra.
Defined.

(** ** Rotations over the exact reals *)

Lemma getUnitVector_negate (v : Vector R) :
  getUnitVector (negate_axis v) = negate_axis (getUnitVector v).
Proof.
  unfold getUnitVector, getVectorMagnitude, negate_axis. unfold_real.
  replace (- x v * - x v + - y v * - y v + - z v * - z v)%R
    with (x v * x v + y v * y v + z v * z v)%R by ring.
  f_equal; unfold Rdiv; ring.
Qed.

Lemma getUnitVector_mirror_y (v : Vector R) :
  getUnitVector (mirror_y v) = mirror_y (getUnitVector v).
Proof.
  unfold getUnitVector, getVectorMagnitude, mirror_y. unfold_real.
  replace (x v * x v + - y v * - y v + z v * z v)%R
    with (x v * x v + y v * y v + z v * z v)%R by ring.
  f_equal; unfold Rdiv; ring.
Qed.

Lemma half_neg (angle : R) : (- angle / 2 = - (angle / 2))%R.
Proof. field. Qed.

(** X14. Over the exact reals, a rotation about the negated axis is the
    rotation by the negated angle about the axis:
    [getAlphaBetaFromRotation] returns the same pair for (angle, -v) and
    for (-angle, v). *)
Theorem getAlphaBetaFromRotation_negated_axis (angle : R) (v : Vector R) :
  getAlphaBetaFromRotation angle (negate_axis v)
  = getAlphaBetaFromRotation (- angle)%R v.
Proof.
  rewrite !getAlphaBetaFromRotation_unfold, getUnitVector_negate.
  unfold negate_axis. unfold_real.
  rewrite half_neg, cos_neg, sin_neg.
  f_equal; f_equal; ring.
Qed.

(** X15. Over the exact reals, the Conj variants make the kernel call of
    their counterparts for the negated angle about the axis mirrored in y:
    [statevec_rotateAroundAxisConj] at (angle, (x,y,z)) is
    [statevec_rotateAroundAxis] at (-angle, (x,-y,z)), and likewise the
    controlled pair. *)
Theorem rotateAroundAxisConj_is_mirrored_rotation (qureg : QubitRegister R)
    (rotQubit controlQubit targetQubit : Z) (angle : R) (v : Vector R) :
  statevec_rotateAroundAxisConj qureg rotQubit angle v
  = statevec_rotateAroundAxis qureg rotQubit (- angle)%R (mirror_y v) /\
  statevec_controlledRotateAroundAxisConj qureg controlQubit targetQubit angle v
  = statevec_controlledRotateAroundAxis qureg controlQubit targetQubit
      (- angle)%R (mirror_y v).
Proof.
  unfold statevec_rotateAroundAxisConj, statevec_rotateAroundAxis,
    statevec_controlledRotateAroundAxisConj, statevec_controlledRotateAroundAxis.
  rewrite !getAlphaBetaFromRotation_unfold, getUnitVector_mirror_y.
  unfold negate_imag, mirror_y. unfold_real.
  rewrite half_neg, cos_neg, sin_neg.
  split; f_equal; f_equal; ring.
Qed.

(** X16. Over the exact reals the pair of a rotation has period 4 pi in
    the angle, and 2 pi more negates it: [getAlphaBetaFromRotation] at
    angle + 4 pi returns the pair of angle, at angle + 2 pi the pair with
    alpha and beta negated. *)
Theorem getAlphaBetaFromRotation_period (angle : R) (v : Vector R) :
  getAlphaBetaFromRotation (angle + 4 * PI)%R v = getAlphaBetaFromRotation angle v /\
  getAlphaBetaFromRotation (angle + 2 * PI)%R v
  = (negate_complex (fst (getAlphaBetaFromRotation angle v)),
     negate_complex (snd (getAlphaBetaFromRotation angle v))).
Proof.
  rewrite !getAlphaBetaFromRotation_unfold. unfold negate_complex. unfold_real.
  replace ((angle + 4 * PI) / 2)%R with (angle / 2 + 2 * PI)%R by field.
  replace ((angle + 2 * PI) / 2)%R with (angle / 2 + PI)%R by field.
  rewrite cos_plus, sin_plus, cos_2PI, sin_2PI, neg_cos, neg_sin.
  split; f_equal; f_equal; ring.
Qed.

(** X17. Over the exact reals the rotations about the three unit axes hand
    their kernel the pairs of the textbook: X gives alpha =
    (cos(angle/2), 0) and beta = (0, -sin(angle/2)); Y gives alpha =
    (cos(angle/2), 0) and beta = (sin(angle/2), 0); Z gives alpha =
    (cos(angle/2), -sin(angle/2)) and beta = (0, 0); the controlled
    rotations hand the same pairs to the controlled kernel. *)
Theorem rotateXYZ_pairs (qureg : QubitRegister R)
    (rotQubit controlQubit targetQubit : Z) (angle : R) :
  let c := Rtrigo_def.cos (angle / 2) in
  let s := Rtrigo_def.sin (angle / 2) in
  statevec_rotateX qureg rotQubit angle
  = statevec_compactUnitary qureg rotQubit
      {| real := c; imag := 0%R |} {| real := 0%R; imag := (- s)%R |} /\
  statevec_rotateY qureg rotQubit angle
  = statevec_compactUnitary qureg rotQubit
      {| real := c; imag := 0%R |} {| real := s; imag := 0%R |} /\
  statevec_rotateZ qureg rotQubit angle
  = statevec_compactUnitary qureg rotQubit
      {| real := c; imag := (- s)%R |} {| real := 0%R; imag := 0%R |} /\
  statevec_controlledRotateX qureg controlQubit targetQubit angle
  = statevec_controlledCompactUnitary qureg controlQubit targetQubit
      {| real := c; imag := 0%R |} {| real := 0%R; imag := (- s)%R |} /\
  statevec_controlledRotateY qureg controlQubit targetQubit angle
  = statevec_controlledCompactUnitary qureg controlQubit targetQubit
      {| real := c; imag := 0%R |} {| real := s; imag := 0%R |} /\
  statevec_controlledRotateZ qureg controlQubit targetQubit angle
  = statevec_controlledCompactUnitary qureg controlQubit targetQubit
      {| real := c; imag := (- s)%R |} {| real := 0%R; imag := 0%R |}.
Proof.
  unfold statevec_rotateX, statevec_rotateY, statevec_rotateZ,
    statevec_rotateAroundAxis, statevec_controlledRotateX,
    statevec_controlledRotateY, statevec_controlledRotateZ,
    statevec_controlledRotateAroundAxis.
  rewrite !getAlphaBetaFromRotation_unfold.
  unfold getUnitVector, getVectorMagnitude. unfold_real.
  replace (1 * 1 + 0 * 0 + 0 * 0)%R with 1%R by ring.
  replace (0 * 0 + 1 * 1 + 0 * 0)%R with 1%R by ring.
  replace (0 * 0 + 0 * 0 + 1 * 1)%R with 1%R by ring.
  rewrite sqrt_1.
  repeat split; f_equal; f_equal; field.
Qed.

(** X18. Over the exact reals, for every non-zero axis (unit or not) each
    of the four rotation entry points hands its kernel a pair of unit
    norm, [|alpha|^2 + |beta|^2 = 1]: the Conj variants too. *)
Theorem rotations_pass_unit_pairs (qureg : QubitRegister R)
    (rotQubit controlQubit targetQubit : Z) (angle : R) (axis : Vector R) :
  nonzero_axis axis ->
  Forall (fun call => exists p, call_pair call = Some p /\ unit_pair p)
    [ statevec_rotateAroundAxis qureg rotQubit angle axis;
      statevec_rotateAroundAxisConj qureg rotQubit angle axis;
      statevec_controlledRotateAroundAxis qureg controlQubit targetQubit angle axis;
      statevec_controlledRotateAroundAxisConj qureg controlQubit targetQubit
        angle axis ].
Proof.
  intros Haxis. pose proof (norm_sq_rotation angle axis Haxis) as Hn.
  unfold statevec_rotateAroundAxis, statevec_rotateAroundAxisConj,
    statevec_controlledRotateAroundAxis, statevec_controlledRotateAroundAxisConj.
  destruct (getAlphaBetaFromRotation angle axis) as [alpha beta].
  cbn [fst snd] in Hn.
  assert (unit_pair (negate_imag alpha, negate_imag beta)) as Hc.
  { unfold unit_pair, norm_sq, negate_imag in *. unfold_real. nra. }
  repeat constructor; eexists; (split; [ reflexivity | assumption ]).
Qed.

Lemma rotations_pass_unit_pairs_witness :
  Forall (fun call => exists p, call_pair call = Some p /\ unit_pair p)
    [ statevec_rotateAroundAxis (qureg_06_08 1%R 0%R) 0 1%R
        {| x := 0%R; y := 3%R; z := 4%R |};
      statevec_rotateAroundAxisConj (qureg_06_08 1%R 0%R) 0 1%R
        {| x := 0%R; y := 3%R; z := 4%R |};
      statevec_controlledRotateAroundAxis (qureg_06_08 1%R 0%R) 1 0 1%R
        {| x := 0%R; y := 3%R; z := 4%R |};
      statevec_controlledRotateAroundAxisConj (qureg_06_08 1%R 0%R) 1 0 1%R
        {| x := 0%R; y := 3%R; z := 4%R |} ].
Proof.
  apply (rotations_pass_unit_pairs (qureg_06_08 1%R 0%R) 0 1 0 1%R
           {| x := 0%R; y := 3%R; z := 4%R |}).
  right; left. cbn. lra.
Defined.


(** ** Phase gates over the exact reals *)

(** X19. Over the exact reals the five fixed phase gates are phase shifts:
    Z is [statevec_phaseShift] by pi, S by pi/2, T by pi/4, S-adjoint by
    -pi/2 and T-adjoint by -pi/4, each the same kernel call. *)
Theorem fixed_phase_gates_are_phaseShifts (qureg : QubitRegister R)
    (targetQubit : Z) :
  statevec_sigmaZ qureg targetQubit = statevec_phaseShift qureg targetQubit PI /\
  statevec_sGate qureg targetQubit
  = statevec_phaseShift qureg targetQubit (PI / 2)%R /\
  statevec_tGate qureg targetQubit
  = statevec_phaseShift qureg targetQubit (PI / 4)%R /\
  statevec_sGateConj qureg targetQubit
  = statevec_phaseShift qureg targetQubit (- (PI / 2))%R /\
  statevec_tGateConj qureg targetQubit
  = statevec_phaseShift qureg targetQubit (- (PI / 4))%R.
Proof.
  pose proof (sqrt_lt_R0 2 ltac:(lra)) as Hpos.
  unfold statevec_sigmaZ, statevec_sGate, statevec_tGate, statevec_sGateConj,
    statevec_tGateConj, statevec_phaseShift. unfold_real.
  rewrite !cos_neg, !sin_neg, cos_PI, sin_PI, cos_PI2, sin_PI2, cos_PI4, sin_PI4.
  repeat split; f_equal; f_equal; field; lra.
Qed.

(** X20. Over the exact reals [statevec_phaseShift] by the negated angle
    passes the complex conjugate ([getConjugateScalar]) of the term it
    passes for the angle, and by angle + 2 pi the same term. *)
Theorem phaseShift_negated_angle (qureg : QubitRegister R) (targetQubit : Z)
    (angle : R) :
  call_term (statevec_phaseShift qureg targetQubit (- angle)%R)
  = getConjugateScalar <$> call_term (statevec_phaseShift qureg targetQubit angle) /\
  statevec_phaseShift qureg targetQubit (angle + 2 * PI)%R
  = statevec_phaseShift qureg targetQubit angle.
Proof.
  unfold statevec_phaseShift, getConjugateScalar. cbn [call_term fmap option_fmap
    option_map]. unfold_real.
  rewrite cos_neg, sin_neg, cos_plus, sin_plus, cos_2PI, sin_2PI.
  split; f_equal; f_equal; ring.
Qed.

(** ** Conjugation *)

Lemma SFopp_involutive (f : spec_float) : SFopp (SFopp f) = f.
Proof. destruct f as [ [ | ] | [ | ] | | [ | ] m e ]; reflexivity. Qed.

Lemma float_opp_involutive (f : float) : PrimFloat.opp (PrimFloat.opp f) = f.
Proof.
  apply Prim2SF_inj. now rewrite !opp_spec, SFopp_involutive.
Qed.

(** X21. Conjugating twice gives the matrix back: [getConjugateMatrix] is
    its own inverse, over the exact reals and in binary64 (with any libm),
    and so is [getConjugateScalar]. *)
Theorem getConjugateMatrix_involutive :
  (forall (c : Complex R) (m : ComplexMatrix2 R),
     getConjugateScalar (getConjugateScalar c) = c /\
     getConjugateMatrix (getConjugateMatrix m) = m)
  /\
  (forall (libm_cos libm_sin : float -> float) (c : Complex float)
          (m : ComplexMatrix2 float),
     getConjugateScalar (arith := Binary64 libm_cos libm_sin)
       (getConjugateScalar (arith := Binary64 libm_cos libm_sin) c) = c /\
     getConjugateMatrix (arith := Binary64 libm_cos libm_sin)
       (getConjugateMatrix (arith := Binary64 libm_cos libm_sin) m) = m).
Proof.
  split.
  - assert (forall c : Complex R, getConjugateScalar (getConjugateScalar c) = c)
      as Hc.
    { intros [re im]. unfold getConjugateScalar. unfold_real. f_equal. ring. }
    intros c [m00 m01 m10 m11]. split; [ apply Hc | ].
    unfold getConjugateMatrix. cbn [r0c0 r0c1 r1c0 r1c1]. now rewrite !Hc.
  - intros libm_cos libm_sin.
    assert (forall c : Complex float,
               getConjugateScalar (arith := Binary64 libm_cos libm_sin)
                 (getConjugateScalar (arith := Binary64 libm_cos libm_sin) c) = c)
      as Hc.
    { intros [re im]. unfold getConjugateScalar. cbn [real imag rneg Binary64].
      now rewrite float_opp_involutive. }
    intros c [m00 m01 m10 m11]. split; [ apply Hc | ].
    unfold getConjugateMatrix. cbn [r0c0 r0c1 r1c0 r1c1]. now rewrite !Hc.
Qed.

(** ** A zero axis in binary64 *)

Lemma float_zero_cases (f : float) :
  PrimFloat.eqb f 0%float = true -> f = 0%float \/ f = (-0)%float.
Proof.
  rewrite FloatAxioms.eqb_spec. intros Heq.
  assert (exists s, Prim2SF f = S754_zero s) as [s Hs].
  { destruct (Prim2SF f) as [ s | [ | ] | | [ | ] m e ]; try discriminate.
    now exists s. }
  rewrite <- (SF2Prim_Prim2SF f), Hs. destruct s; [ right | left ]; reflexivity.
Qed.

Lemma float_mul_nan (f : float) : PrimFloat.mul f nan = nan.
Proof.
  apply Prim2SF_inj. rewrite mul_spec.
  change (Prim2SF nan) with S754_nan.
  now destruct (Prim2SF f) as [ [ | ] | [ | ] | | [ | ] m e ].
Qed.

(** X22. In binary64, with any libm and for every angle, an axis whose three
    components are zero (of either sign) normalises to three NaNs, and
    [getAlphaBetaFromRotation] returns NaN as the imaginary part of alpha
    and as both parts of beta: no guard stops a zero-length axis. *)
Theorem getAlphaBetaFromRotation_zero_axis_binary64
    (libm_cos libm_sin : float -> float) (angle : float) (axis : Vector float) :
  PrimFloat.eqb (x axis) 0%float = true ->
  PrimFloat.eqb (y axis) 0%float = true ->
  PrimFloat.eqb (z axis) 0%float = true ->
  getUnitVector (arith := Binary64 libm_cos libm_sin) axis
  = {| x := nan; y := nan; z := nan |} /\
  imag (fst (getAlphaBetaFromRotation (arith := Binary64 libm_cos libm_sin)
               angle axis)) = nan /\
  snd (getAlphaBetaFromRotation (arith := Binary64 libm_cos libm_sin) angle axis)
  = {| real := nan; imag := nan |}.
Proof.
  intros Hx Hy Hz.
  assert (getUnitVector (arith := Binary64 libm_cos libm_sin) axis
          = {| x := nan; y := nan; z := nan |}) as Hu.
  { destruct axis as [ax ay az]. cbn [x y z] in *.
    destruct (float_zero_cases ax Hx) as [-> | ->];
      destruct (float_zero_cases ay Hy) as [-> | ->];
      destruct (float_zero_cases az Hz) as [-> | ->];
      vm_compute; reflexivity. }
  split; [ exact Hu | ].
  rewrite getAlphaBetaFromRotation_unfold, Hu.
  cbn [fst snd real imag x y z rmul Binary64].
  now rewrite !float_mul_nan.
Qed.

Lemma getAlphaBetaFromRotation_zero_axis_binary64_witness :
  getUnitVector (arith := Binary64 (fun a => a) (fun a => a))
    {| x := 0%float; y := (-0)%float; z := 0%float |}
  = {| x := nan; y := nan; z := nan |} /\
  imag (fst (getAlphaBetaFromRotation (arith := Binary64 (fun a => a) (fun a => a))
               1%float {| x := 0%float; y := (-0)%float; z := 0%float |})) = nan /\
  snd (getAlphaBetaFromRotation (arith := Binary64 (fun a => a) (fun a => a))
         1%float {| x := 0%float; y := (-0)%float; z := 0%float |})
  = {| real := nan; imag := nan |}.
Proof.
  apply (getAlphaBetaFromRotation_zero_axis_binary64 (fun a => a) (fun a => a)
           1%float {| x := 0%float; y := (-0)%float; z := 0%float |});
    vm_compute; reflexivity.
Defined.

(** ** Export of several chunks *)

Lemma string_app_inv_tail (a b s : string) : a +:+ s = b +:+ s -> a = b.
Proof.
  revert b. induction a as [ | c a IH ]; intros [ | d b ] Heq.
  - reflexivity.
  - change (s = String d (b +:+ s)) in Heq.
    apply (f_equal String.length) in Heq.
    cbn [String.length] in Heq. rewrite string_length_app in Heq. lia.
  - change (String c (a +:+ s) = s) in Heq.
    apply (f_equal String.length) in Heq.
    cbn [String.length] in Heq. rewrite string_length_app in Heq. lia.
  - change (String c (a +:+ s) = String d (b +:+ s)) in Heq.
    injection Heq as -> Heq. f_equal. now apply IH.
Qed.

(** Chunks with different ids export to files with different names. *)
Lemma export_filename_inj {REAL} (q1 q2 : QubitRegister REAL) :
  export_filename q1 = export_filename q2 -> chunkId q1 = chunkId q2.
Proof.
  unfold export_filename. intros Heq.
  apply (inj (String.app "state_rank_")) in Heq.
  apply string_app_inv_tail in Heq. now apply (inj pretty) in Heq.
Qed.

(** X23. Exports of two chunks with different ids do not disturb each
    other: after [reportState] on one register and then on another, both
    with their arrays in place and [fopen] succeeding, each of the two
    files holds the text of its own chunk. *)
Theorem reportState_two_chunks {REAL} {format : RealFormat REAL} (QuEST_PREC : Z)
    (q1 q2 : QubitRegister REAL) (w : World) :
  wf_register q1 -> wf_register q2 ->
  chunkId q1 <> chunkId q2 ->
  export_filename q1 ∉ unwritable w ->
  export_filename q2 ∉ unwritable w ->
  exists w1 w2,
    reportState QuEST_PREC q1 w = Done tt w1 /\
    reportState QuEST_PREC q2 w1 = Done tt w2 /\
    files w2 !! export_filename q1
    = Some (concat_lines (header_texts q1 ++ data_texts QuEST_PREC q1)) /\
    files w2 !! export_filename q2
    = Some (concat_lines (header_texts q2 ++ data_texts QuEST_PREC q2)).
Proof.
  intros Hwf1 Hwf2 Hids Hok1 Hok2.
  destruct (reportState_run QuEST_PREC q1 w Hwf1 Hok1)
    as (w1 & Hrun1 & Hfiles1 & _ & Hunw1 & _).
  rewrite <- Hunw1 in Hok2.
  destruct (reportState_run QuEST_PREC q2 w1 Hwf2 Hok2)
    as (w2 & Hrun2 & Hfiles2 & _).
  exists w1, w2. split; [ exact Hrun1 | ]. split; [ exact Hrun2 | ].
  rewrite Hfiles2, Hfiles1. split.
  - rewrite lookup_insert_ne.
    + apply lookup_insert_eq.
    + intros Heq. symmetry in Heq. now apply export_filename_inj in Heq.
  - apply lookup_insert_eq.
Qed.

Lemma reportState_two_chunks_witness :
  exists w1 w2,
    reportState 2 qureg_scenario empty_world = Done tt w1 /\
    reportState 2 (mkQubitRegister (mkComplexArray [0%float] [1%float]) 1 1 1 2) w1
    = Done tt w2 /\
    files w2 !! export_filename qureg_scenario
    = Some (concat_lines (header_texts qureg_scenario
                          ++ data_texts 2 qureg_scenario)) /\
    files w2 !! export_filename
                  (mkQubitRegister (mkComplexArray [0%float] [1%float]) 1 1 1 2)
    = Some (concat_lines
              (header_texts
                 (mkQubitRegister (mkComplexArray [0%float] [1%float]) 1 1 1 2)
               ++ data_texts 2
                    (mkQubitRegister (mkComplexArray [0%float] [1%float]) 1 1 1 2))).
Proof.
  apply (reportState_two_chunks 2 qureg_scenario
           (mkQubitRegister (mkComplexArray [0%float] [1%float]) 1 1 1 2)
           empty_world).
  - unfold wf_register. cbn. lia.
  - unfold wf_register. cbn. lia.
  - cbn. lia.
  - cbn. apply not_elem_of_empty.
  - cbn. apply not_elem_of_empty.
Defined.

(** X24. Exporting again overwrites: a second [reportState] on the same
    register, with [fopen] succeeding, leaves every file as the first left
    it (the file is truncated on opening, not appended to). *)
Theorem reportState_twice {REAL} {format : RealFormat REAL} (QuEST_PREC : Z)
    (qureg : QubitRegister REAL) (w : World) :
  wf_register qureg ->
  export_filename qureg ∉ unwritable w ->
  exists w1 w2,
    reportState QuEST_PREC qureg w = Done tt w1 /\
    reportState QuEST_PREC qureg w1 = Done tt w2 /\
    files w2 = files w1.
Proof.
  intros Hwf Hok.
  destruct (reportState_run QuEST_PREC qureg w Hwf Hok)
    as (w1 & Hrun1 & Hfiles1 & _ & Hunw1 & _).
  rewrite <- Hunw1 in Hok.
  destruct (reportState_run QuEST_PREC qureg w1 Hwf Hok)
    as (w2 & Hrun2 & Hfiles2 & _).
  exists w1, w2. split; [ exact Hrun1 | ]. split; [ exact Hrun2 | ].
  rewrite Hfiles2, Hfiles1. apply insert_insert_eq.
Qed.

Lemma reportState_twice_witness :
  exists w1 w2,
    reportState 2 qureg_scenario empty_world = Done tt w1 /\
    reportState 2 qureg_scenario w1 = Done tt w2 /\
    files w2 = files w1.
Proof.
  apply (reportState_twice 2 qureg_scenario empty_world).
  - unfold wf_register. cbn. lia.
  - cbn. apply not_elem_of_empty.
Defined.

(** X25. A register with no local amplitude ([numAmpsPerChunk <= 0]) exports
    the header alone on chunk 0 and an empty file on any other chunk,
    whatever its arrays hold and whatever the precision setting, where
    [fopen] succeeds. *)
Theorem reportState_no_amplitudes {REAL} {format : RealFormat REAL} (QuEST_PREC : Z)
    (qureg : QubitRegister REAL) (w : World) :
  (numAmpsPerChunk qureg <= 0)%Z ->
  export_filename qureg ∉ unwritable w ->
  exists w',
    reportState QuEST_PREC qureg w = Done tt w' /\
    files w' = <[export_filename qureg :=
                   if (chunkId qureg =? 0)%Z then "real, imag
" else ""]> (files w).
Proof.
  intros Hn Hok. unfold reportState.
  change ("state_rank_" +:+ fmt_d (chunkId qureg) +:+ ".csv")
    with (export_filename qureg).
  set (name := export_filename qureg) in *.
  replace (Z.to_nat (numAmpsPerChunk qureg)) with 0%nat by lia.
  cbn [reportState_loop]. unfold io_bind, fopen_w.
  rewrite decide_False by exact Hok.
  set (id := next_stream w).
  set (w1 := log_call _ _).
  assert (Hopen1 : streams w1 !! id = Some name) by apply lookup_insert_eq.
  destruct (chunkId qureg =? 0)%Z.
  - rewrite (fprintf_open id name _ w1 Hopen1). unfold io_ret, fclose.
    cbn [log_call streams write_world]. rewrite Hopen1.
    eexists. split; [ reflexivity | ].
    subst w1. unfold write_world. cbn [files log_call].
    rewrite lookup_insert_eq. cbn [default]. now rewrite insert_insert_eq.
  - unfold io_ret, fclose. cbn [log_call streams]. rewrite Hopen1.
    eexists. split; reflexivity.
Qed.

Lemma reportState_no_amplitudes_witness :
  exists w',
    reportState 2 (mkQubitRegister (mkComplexArray [] []) 0 0 0 1) empty_world
    = Done tt w' /\
    files w' = <[export_filename
                   (mkQubitRegister (mkComplexArray (@nil float) []) 0 0 0 1) :=
                   if (chunkId (mkQubitRegister (mkComplexArray (@nil float) [])
                                  0 0 0 1) =? 0)%Z
                   then "real, imag
" else ""]> (files empty_world).
Proof.
  apply (reportState_no_amplitudes 2
           (mkQubitRegister (mkComplexArray (@nil float) []) 0 0 0 1) empty_world).
  - cbn. lia.
  - cbn. apply not_elem_of_empty.
Defined.

(** ** Magnitude in binary64 *)

Lemma SFsqrt_not_negative (prec emax : Z) (f : spec_float) :
  sf_not_negative f = true -> sf_not_negative (SFsqrt prec emax f) = true.
Proof.
  destruct f as [ [ | ] | [ | ] | | [ | ] m e ]; try discriminate;
    intros _; try reflexivity.
  cbn [SFsqrt]. destruct (SFsqrt_core_binary _ _ _ _) as [[mz ez] lz].
  apply binary_round_aux_not_negative.
Qed.

(** X26. In binary64 [getVectorMagnitude] is never below zero: for every
    vector, NaNs and infinities included, the result is a NaN or has a
    clear sign bit. *)
Theorem getVectorMagnitude_not_negative_binary64
    (libm_cos libm_sin : float -> float) (v : Vector float) :
  PrimFloat.ltb (getVectorMagnitude (arith := Binary64 libm_cos libm_sin) v)
    0%float = false /\
  sf_not_negative
    (Prim2SF (getVectorMagnitude (arith := Binary64 libm_cos libm_sin) v)) = true.
Proof.
  unfold getVectorMagnitude. cbn [rsqrt radd rmul Binary64].
  assert (sf_not_negative
            (Prim2SF (PrimFloat.sqrt (x v * x v + y v * y v + z v * z v)%float))
          = true) as Hs.
  { rewrite sqrt_spec, !add_spec, !mul_spec.
    apply SFsqrt_not_negative.
    repeat apply SFadd_not_negative; apply SFmul_square_not_negative. }
  split; [ | exact Hs ].
  rewrite ltb_spec. revert Hs.
  destruct (Prim2SF (PrimFloat.sqrt _)) as [ [ | ] | [ | ] | | [ | ] m e ];
    try discriminate; reflexivity.
Qed.

